(** * gorb: a round-robin balancer over one master and its replicas

    A shallow embedding of [balancer.go] (both revisions kept in the
    repository) and of [Balancer.Prepare] from [gorp_api.go], with the
    properties of the topology router stated and proved over it.

    Conventions of the embedding:
    - a [*gorp.DbMap] is an address in an allocation store ([ptr]); [nil] is
      [None]; two pointers are equal exactly when their addresses are;
    - [uint64] is [Z] with the wrap-around modulo [2^64] written out;
    - a Go [panic] is the [Panic] outcome;
    - calls into [database/sql] and [gorp] on a handle are recorded, in
      order, in a log of events, and their answers are given per handle by
      the [Collaborators] class;
    - the mutex is not modelled: every function is one sequential call. *)

From Stdlib Require Import ZArith Lia Ascii.
From stdpp Require Import strings list gmap.


(** ** Go values *)

(** A non-nil [error] value, by its message. The nil error is [None]. *)
Definition error : Type := string.

(** A [(T, error)] pair of which exactly one side is set. *)
Inductive result (A : Type) : Type :=
| Ok (a : A)
| Err (e : error).
Arguments Ok {A} a.
Arguments Err {A} e.

(** A call either returns or panics. *)
Inductive outcome (A : Type) : Type :=
| Done (a : A)
| Panic (msg : string).
Arguments Done {A} a.
Arguments Panic {A} msg.

Definition uint64_modulus : Z := 2 ^ 64.

(** [atomic.AddUint64(&c, 1)]: the new value, wrapped. *)
Definition AddUint64_1 (c : Z) : Z := ((c + 1) mod uint64_modulus)%Z.

(** ** Pointers and the allocation store *)

Definition loc : Type := nat.

(** A [*gorp.DbMap]. *)
Definition ptr : Type := option loc.

Definition nil : ptr := None.

(** ** Calls on a handle *)

Inductive call : Type :=
| CPing
| CSetMaxIdleConns (n : Z)
| CSetMaxOpenConns (n : Z)
| CSetConnMaxLifetime (d : Z)
| CClose
| CPrepare (query : string).

(** One call made on the handle at an address. *)
Definition event : Type := (loc * call)%type.

(** A computation that logs the calls it makes, in order, and returns or
    panics. *)
Definition M (A : Type) : Type := (list event * outcome A)%type.

Global Instance M_ret : MRet M := fun A a => ([], Done a).

Global Instance M_bind : MBind M := fun A B f m =>
  match m with
  | (l, Done a) => let '(l', r) := f a in (l ++ l', r)
  | (l, Panic msg) => (l, Panic msg)
  end.

Global Instance outcome_ret : MRet outcome := fun A a => Done a.

Global Instance outcome_mbind : MBind outcome := fun A B f m =>
  match m with
  | Done a => f a
  | Panic msg => Panic msg
  end.

(** The calls logged by a computation, and its outcome. *)
Definition calls {A : Type} (m : M A) : list event := fst m.
Definition outcome_of {A : Type} (m : M A) : outcome A := snd m.

(** The collaborators: the types of [*sql.DB], [gorp.Dialect] and
    [*sql.Stmt], what [sql.Open] answers per driver name and data source
    name, and what [Ping], [Close] and [Prepare] answer per handle. *)
Class Collaborators : Type := {
  sql_DB : Type;
  gorp_Dialect : Type;
  sql_Stmt : Type;
  sql_Open : string -> string -> result sql_DB;
  Db_Ping : loc -> option error;
  Db_Close : loc -> option error;
  DbMap_Prepare : loc -> string -> result sql_Stmt
}.

(** The fields of [gorp.DbMap] that the balancer sets. *)
Record gorp_DbMap `{Collaborators} : Type := mkDbMap {
  Db : sql_DB;
  Dialect : gorp_Dialect
}.
Arguments mkDbMap {_} _ _.

(** The store: the cell at address [a] is the [a]-th allocated one. *)
Definition heap `{Collaborators} : Type := list gorp_DbMap.

(** [&gorp.DbMap{...}]: a fresh address and the extended store. *)
Definition alloc `{Collaborators} (h : heap) (v : gorp_DbMap) : ptr * heap :=
  (Some (length h), h ++ [v]).

(** A method call through a pointer: a nil receiver panics, otherwise the
    call is logged and the answer [ans] returned. *)
Definition on_handle {A : Type} (db : ptr) (c : call) (ans : loc -> A) : M A :=
  match db with
  | None => ([], Panic "invalid memory address or nil pointer dereference")
  | Some a => ([(a, c)], Done (ans a))
  end.

(** ** [strings.Split] with a one-byte separator

    The pieces of [s] between the occurrences of [sep]; one more piece than
    there are separators, so the result is never empty. *)
Fixpoint Split (s : string) (sep : Ascii.ascii) : list string :=
  match s with
  | EmptyString => [EmptyString]
  | String c s' =>
      if Ascii.eqb c sep then EmptyString :: Split s' sep
      else match Split s' sep with
           | piece :: pieces => String c piece :: pieces
           | [] => [String c EmptyString]
           end
  end.

(** ** The [Balancer] struct

    Both revisions have the same fields; the first calls the list [slaves],
    the second [replicas]. *)
Record Balancer : Type := mkBalancer {
  DbMap : ptr;            (* the embedded *gorp.DbMap: the master *)
  replicas : list ptr;
  count : Z;              (* uint64 *)
  masterCanRead : bool
}.

(** [&Balancer{}] *)
Definition Balancer_zero : Balancer :=
  {| DbMap := nil; replicas := []; count := 0; masterCanRead := false |}.

Definition set_DbMap (b : Balancer) (p : ptr) : Balancer :=
  {| DbMap := p; replicas := replicas b; count := count b;
     masterCanRead := masterCanRead b |}.

Definition set_replicas (b : Balancer) (l : list ptr) : Balancer :=
  {| DbMap := DbMap b; replicas := l; count := count b;
     masterCanRead := masterCanRead b |}.

Definition set_count (b : Balancer) (c : Z) : Balancer :=
  {| DbMap := DbMap b; replicas := replicas b; count := c;
     masterCanRead := masterCanRead b |}.

Definition set_masterCanRead (b : Balancer) (r : bool) : Balancer :=
  {| DbMap := DbMap b; replicas := replicas b; count := count b;
     masterCanRead := r |}.

(** ** What the two revisions share *)

(** [GetAllDbs]: the master first, then the list. *)
Definition GetAllDbs (b : Balancer) : list ptr :=
  let dbs := [] in
  let dbs := dbs ++ [DbMap b] in
  let dbs := dbs ++ replicas b in
  dbs.

(** [Master] *)
Definition Master (b : Balancer) : ptr := DbMap b.

(** [replica] ([slave] in the first revision): the index to read from and
    the balancer with its counter advanced. [x % 0] panics. *)
Definition replica (b : Balancer) : outcome (Z * Balancer) :=
  if decide (length (replicas b) = 1) then Done (0%Z, b)
  else
    let c := AddUint64_1 (count b) in
    let len := Z.of_nat (length (replicas b)) in
    if decide (len = 0%Z) then Panic "integer divide by zero"
    else Done ((c mod len)%Z, set_count b c).

(** [Replica] ([Slave] in the first revision). An index outside the list
    panics. *)
Definition Replica (b : Balancer) : outcome (ptr * Balancer) :=
  '(i, b') ← replica b;
  if decide (0 <= i)%Z then
    match replicas b' !! Z.to_nat i with
    | Some db => Done (db, b')
    | None => Panic "index out of range"
    end
  else Panic "index out of range".

(** The three tuners, one loop each over [GetAllDbs]. *)
Fixpoint tune_loop (c : call) (dbs : list ptr) : M unit :=
  match dbs with
  | [] => mret tt
  | db :: dbs' => on_handle db c (fun _ => tt);; tune_loop c dbs'
  end.

Definition SetMaxIdleConns (b : Balancer) (n : Z) : M unit :=
  tune_loop (CSetMaxIdleConns n) (GetAllDbs b).

Definition SetMaxOpenConns (b : Balancer) (n : Z) : M unit :=
  tune_loop (CSetMaxOpenConns n) (GetAllDbs b).

Definition SetConnMaxLifetime (b : Balancer) (d : Z) : M unit :=
  tune_loop (CSetConnMaxLifetime d) (GetAllDbs b).

(** ** [Balancer.Prepare] ([gorp_api.go]) *)

Section Prepare.
Context `{Collaborators}.

(** The [stmt] struct behind the returned [Stmt]: the balancer and one
    [*sql.Stmt] per element of [GetAllDbs]. *)
Record stmt : Type := mkStmt {
  bl : Balancer;
  stmts : list (option sql_Stmt)
}.

(** [for i := range stmts]: [n] iterations are left, the next index is [i]. *)
Fixpoint Prepare_loop (query : string) (dbs : list ptr) (n i : nat)
    (stmts : list (option sql_Stmt)) : M (result (list (option sql_Stmt))) :=
  match n with
  | 0 => mret (Ok stmts)
  | S n' =>
      match dbs !! i with
      | None => ([], Panic "index out of range")
      | Some db =>
          r ← on_handle db (CPrepare query) (fun a => DbMap_Prepare a query);
          match r with
          | Err err => mret (Err err)
          | Ok s => Prepare_loop query dbs n' (S i) (<[i := Some s]> stmts)
          end
      end
  end.

Definition Prepare (b : Balancer) (query : string) : M (result stmt) :=
  let dbs := GetAllDbs b in
  let stmts := replicate (length dbs) None in
  r ← Prepare_loop query dbs (length stmts) 0 stmts;
  match r with
  | Err err => mret (Err err)
  | Ok stmts => mret (Ok {| bl := b; stmts := stmts |})
  end.

End Prepare.

(** ** The first revision of [balancer.go] *)

Module Rev1.

(** The names of this revision. *)
Definition slaves : Balancer -> list ptr := replicas.
Definition slave : Balancer -> outcome (Z * Balancer) := replica.
Definition Slave : Balancer -> outcome (ptr * Balancer) := Replica.

Section WithCollaborators.
Context `{Collaborators}.

(** [for i, c := range conns] *)
Fixpoint NewBalancer_loop (driverName : string) (dialect : gorp_Dialect) (i : nat)
    (conns : list string) (b : Balancer) (h : heap)
  : result (Balancer * heap) :=
  match conns with
  | [] => Ok (b, h)
  | c :: conns' =>
      match sql_Open driverName c with
      | Err err => Err err
      | Ok s =>
          let '(mapper, h') := alloc h {| Db := s; Dialect := dialect |} in
          let b' := if decide (i = 0) then set_DbMap b mapper
                    else set_replicas b (replicas b ++ [mapper]) in
          NewBalancer_loop driverName dialect (S i) conns' b' h'
      end
  end.

Definition NewBalancer (driverName : string) (dialect : gorp_Dialect) (sources : string)
    (h : heap) : result (Balancer * heap) :=
  let conns := Split sources ";" in
  if decide (length conns = 0) then Err "empty servers list"
  else
    match NewBalancer_loop driverName dialect 0 conns Balancer_zero h with
    | Err err => Err err
    | Ok (b, h') =>
        let b := if decide (length (replicas b) = 0)
                 then set_masterCanRead (set_replicas b (replicas b ++ [DbMap b])) true
                 else b in
        Ok (b, h')
    end.

(** [Ping]: returns at the first handle that fails. *)
Fixpoint Ping_loop (dbs : list ptr) : M (option error) :=
  match dbs with
  | [] => mret None
  | db :: dbs' =>
      err ← on_handle db CPing Db_Ping;
      match err with
      | Some e => mret (Some e)
      | None => Ping_loop dbs'
      end
  end.

Definition Ping (b : Balancer) : M (option error) := Ping_loop (GetAllDbs b).

(** [Close]: the same loop. *)
Fixpoint Close_loop (dbs : list ptr) : M (option error) :=
  match dbs with
  | [] => mret None
  | db :: dbs' =>
      err ← on_handle db CClose Db_Close;
      match err with
      | Some e => mret (Some e)
      | None => Close_loop dbs'
      end
  end.

Definition Close (b : Balancer) : M (option error) := Close_loop (GetAllDbs b).

End WithCollaborators.

(** [s[:n]]: a negative bound panics. ([n] never exceeds the capacity
    here, being the length minus two.) *)
Definition slice_to (s : list ptr) (n : Z) : outcome (list ptr) :=
  if decide (0 <= n)%Z then Done (take (Z.to_nat n) s)
  else Panic "slice bounds out of range".

Definition MasterCanRead (read : bool) (b : Balancer) : outcome Balancer :=
  b ← (if masterCanRead b && negb read
       then s ← slice_to (slaves b) (Z.of_nat (length (slaves b)) - 2);
            Done (set_replicas b s)
       else Done b);
  let b := if negb (masterCanRead b) && read
           then set_replicas b (slaves b ++ [DbMap b])
           else b in
  Done (set_masterCanRead b read).

Section Reachable.
Context `{Collaborators}.

(** The topologies a program can hold: what [NewBalancer] returns, and
    what the calls that change the balancer make of it. *)
Inductive reachable : Balancer -> Prop :=
| reach_NewBalancer driverName dialect sources h b h' :
    NewBalancer driverName dialect sources h = Ok (b, h') -> reachable b
| reach_MasterCanRead read b b' :
    reachable b -> MasterCanRead read b = Done b' -> reachable b'
| reach_Slave b db b' :
    reachable b -> Slave b = Done (db, b') -> reachable b'.

End Reachable.

End Rev1.

(** ** The second revision of [balancer.go] *)

Module Rev2.

Section WithCollaborators.
Context `{Collaborators}.

(** [for i, c := range conns], skipping the empty pieces. *)
Fixpoint NewBalancer_loop (driverName : string) (dialect : gorp_Dialect) (i : nat)
    (conns : list string) (b : Balancer) (h : heap)
  : result (Balancer * heap) :=
  match conns with
  | [] => Ok (b, h)
  | c :: conns' =>
      if decide (String.length c = 0)
      then NewBalancer_loop driverName dialect (S i) conns' b h
      else
        match sql_Open driverName c with
        | Err err => Err err
        | Ok s =>
            let '(mapper, h') := alloc h {| Db := s; Dialect := dialect |} in
            let b' := if decide (i = 0) then set_DbMap b mapper
                      else set_replicas b (replicas b ++ [mapper]) in
            NewBalancer_loop driverName dialect (S i) conns' b' h'
        end
  end.

Definition NewBalancer (driverName : string) (dialect : gorp_Dialect) (sources : string)
    (h : heap) : result (Balancer * heap) :=
  let conns := Split sources ";" in
  if decide (length conns = 0) then Err "empty servers list"
  else
    match NewBalancer_loop driverName dialect 0 conns Balancer_zero h with
    | Err err => Err err
    | Ok (b, h') =>
        let b := if decide (length (replicas b) = 0)
                 then set_masterCanRead (set_replicas b (replicas b ++ [DbMap b])) true
                 else b in
        Ok (b, h')
    end.

(** [Ping]: every handle is tried; the last error seen is returned. *)
Fixpoint Ping_loop (dbs : list ptr) (err : option error) : M (option error) :=
  match dbs with
  | [] => mret err
  | db :: dbs' =>
      innerErr ← on_handle db CPing Db_Ping;
      Ping_loop dbs' (match innerErr with Some e => Some e | None => err end)
  end.

Definition Ping (b : Balancer) : M (option error) := Ping_loop (GetAllDbs b) None.

(** [Close]: the same loop. *)
Fixpoint Close_loop (dbs : list ptr) (err : option error) : M (option error) :=
  match dbs with
  | [] => mret err
  | db :: dbs' =>
      innerErr ← on_handle db CClose Db_Close;
      Close_loop dbs' (match innerErr with Some e => Some e | None => err end)
  end.

Definition Close (b : Balancer) : M (option error) := Close_loop (GetAllDbs b) None.

End WithCollaborators.

(** The rebuilt list: the elements that are not the master, in order. *)
Definition without_master (b : Balancer) : list ptr :=
  filter (fun db => db ≠ DbMap b) (replicas b).

Definition MasterCanRead (read : bool) (b : Balancer) : outcome Balancer :=
  let b := if read && negb (masterCanRead b)
           then set_masterCanRead (set_replicas b (replicas b ++ [DbMap b])) read
           else b in
  let b := if negb read && masterCanRead b && bool_decide (1 < length (replicas b))
           then set_masterCanRead (set_replicas b (without_master b)) read
           else b in
  Done b.

Section Reachable.
Context `{Collaborators}.

(** The topologies a program can hold: what [NewBalancer] returns, and
    what the calls that change the balancer make of it. *)
Inductive reachable : Balancer -> Prop :=
| reach_NewBalancer driverName dialect sources h b h' :
    NewBalancer driverName dialect sources h = Ok (b, h') -> reachable b
| reach_MasterCanRead read b b' :
    reachable b -> MasterCanRead read b = Done b' -> reachable b'
| reach_Replica b db b' :
    reachable b -> Replica b = Done (db, b') -> reachable b'.

End Reachable.

End Rev2.

(** ** A read selection overlapped by another call

    [Replica] and [Slave] release the mutex before
    [b.replicas[b.replica()]] is evaluated, so a call of another goroutine
    can run between the computation of the index and the indexing. Here
    [other] is that call; [Replica] itself is the case where nothing runs in
    between. *)
Definition Replica_interleaved (other : Balancer -> outcome Balancer) (b : Balancer)
  : outcome (ptr * Balancer) :=
  '(i, b1) ← replica b;
  b2 ← other b1;
  if decide (0 <= i)%Z then
    match replicas b2 !! Z.to_nat i with
    | Some db => Done (db, b2)
    | None => Panic "index out of range"
    end
  else Panic "index out of range".

(** ** Sequences of reads, and counting *)

(** [n] calls of [Replica], one after the other: the handles returned, in
    order, and the balancer left. *)
Fixpoint Replica_n (n : nat) (b : Balancer) : outcome (list ptr * Balancer) :=
  match n with
  | 0 => Done ([], b)
  | S n' =>
      '(db, b') ← Replica b;
      '(dbs, b'') ← Replica_n n' b';
      Done (db :: dbs, b'')
  end.

(** How often a pointer occurs in a list. *)
Definition occurrences (p : ptr) (l : list ptr) : nat :=
  length (filter (fun q => q = p) l).

(** How many of the logged calls were made on the handle at [a]. *)
Definition calls_on (a : loc) (log : list event) : nat :=
  length (filter (fun e => e.1 = a) log).

(** The events of one call [c] on each of the handles [addrs], in order. *)
Definition each (c : call) (addrs : list loc) : list event :=
  (fun a => (a, c)) <$> addrs.

(** ** Two concrete worlds

    In both, [sql.Open] accepts every data source name (the empty one too,
    as drivers that connect lazily do) and a [*sql.DB] is told apart by the
    name it was opened with. *)
Module Scenario.

(** Every call on every handle succeeds. *)
Definition healthy : Collaborators := {|
  sql_DB := string;
  gorp_Dialect := unit;
  sql_Stmt := loc * string;
  sql_Open := fun _ dataSourceName => Ok dataSourceName;
  Db_Ping := fun _ => None;
  Db_Close := fun _ => None;
  DbMap_Prepare := fun a query => Ok (a, query)
|}.

(** The master (address 0) does not answer pings, and the handle at
    address 1 fails to close and to prepare. *)
Definition faulty : Collaborators := {|
  sql_DB := string;
  gorp_Dialect := unit;
  sql_Stmt := loc * string;
  sql_Open := fun _ dataSourceName => Ok dataSourceName;
  Db_Ping := fun a => if decide (a = 0) then Some "connection refused" else None;
  Db_Close := fun a => if decide (a = 1) then Some "close failed" else None;
  DbMap_Prepare := fun a query =>
    if decide (a = 1) then Err "syntax error" else Ok (a, query)
|}.

(** The cell that [NewBalancer] allocates in the healthy world for a data
    source name. *)
Definition cell (dataSourceName : string) : @gorp_DbMap healthy :=
  @mkDbMap healthy dataSourceName tt.

(** A master that is the only read target: what ["A"] builds. *)
Definition master_only : Balancer :=
  {| DbMap := Some 0; replicas := [Some 0]; count := 0; masterCanRead := true |}.

(** A master and two replicas: what ["A;B;C"] builds. *)
Definition one_two : Balancer :=
  {| DbMap := Some 0; replicas := [Some 1; Some 2]; count := 0;
     masterCanRead := false |}.

End Scenario.

(** ** Invariants *)

(** What holds of the balancer while [NewBalancer] builds it, [n] cells
    having been allocated: the counter and the flag are untouched, the
    list holds distinct allocated handles, and the master, once set, is
    allocated and not in the list. *)
Definition under_construction (n : nat) (b : Balancer) : Prop :=
  count b = 0%Z ∧ masterCanRead b = false ∧
  Forall (fun p => ∃ a, p = Some a ∧ a < n) (replicas b) ∧
  NoDup (replicas b) ∧
  match DbMap b with
  | Some a => a < n ∧ Some a ∉ replicas b
  | None => True
  end.

(** The flag of the first revision tells whether the master is in the
    list, and then the master is its last element and nowhere else. *)
Definition Rev1_consistent (b : Balancer) : Prop :=
  if masterCanRead b
  then ∃ l, replicas b = l ++ [DbMap b] ∧ DbMap b ∉ l
  else DbMap b ∉ replicas b.

(** The list of the second revision is never empty, and its flag tells
    whether the master is in the list, and then it is there once. *)
Definition Rev2_consistent (b : Balancer) : Prop :=
  replicas b ≠ [] ∧
  if masterCanRead b
  then occurrences (DbMap b) (replicas b) = 1
  else DbMap b ∉ replicas b.

(** The statement [s] is what the handle at [a] prepares for [query]. *)
Definition prepared `{Collaborators} (query : string) (a : loc) (s : sql_Stmt) : Prop :=
  DbMap_Prepare a query = Ok s.

(** What enabling reads on the master does where it is not yet a read
    target, [mcr] being [MasterCanRead] of either revision: the master is
    appended, is then in the list once, the flag is set, and doing it again
    changes nothing. *)
Definition appends_master_once (mcr : bool -> Balancer -> outcome Balancer)
    (b : Balancer) : Prop :=
  ∃ b1, mcr true b = Done b1 ∧
        replicas b1 = replicas b ++ [DbMap b] ∧
        occurrences (DbMap b) (replicas b1) = 1 ∧
        masterCanRead b1 = true ∧
        DbMap b1 = DbMap b ∧ count b1 = count b ∧
        mcr true b1 = Done b1.

(** The message of the panic on a nil handle. *)
Definition nil_dereference : string :=
  "invalid memory address or nil pointer dereference".

(** ** The read methods ([gorp_api.go])

    Each read method of the balancer asks [Slave] for a handle and calls
    the method of the same name on it. *)

(** What [gorp] answers to a read method on the handle at an address: the
    values the method returns, which the balancer passes on as they are.
    [value] stands for [interface{}]; the numeric and nullable results are
    opaque. *)
Class ReadMethods : Type := {
  value : Type;
  float64 : Type;
  NullFloat64 : Type;
  NullInt64 : Type;
  NullString : Type;
  DbMap_Get : loc -> value -> list value -> value * option error;
  DbMap_Select : loc -> value -> string -> list value -> list value * option error;
  DbMap_SelectFloat : loc -> string -> list value -> float64 * option error;
  DbMap_SelectInt : loc -> string -> list value -> Z * option error;
  DbMap_SelectNullFloat : loc -> string -> list value -> NullFloat64 * option error;
  DbMap_SelectNullInt : loc -> string -> list value -> NullInt64 * option error;
  DbMap_SelectNullStr : loc -> string -> list value -> NullString * option error;
  DbMap_SelectOne : loc -> value -> string -> list value -> option error;
  DbMap_SelectStr : loc -> string -> list value -> string * option error
}.

(** [b.Slave().m(...)]: the answer of the method on the handle that [Slave]
    returns, and the balancer as [Slave] leaves it. The method on a nil
    handle panics. *)
Definition on_Slave {A : Type} (b : Balancer) (m : loc -> A) : outcome (A * Balancer) :=
  '(db, b') ← Rev1.Slave b;
  match db with
  | None => Panic "invalid memory address or nil pointer dereference"
  | Some a => Done (m a, b')
  end.

Section ReadMethods.
Context `{ReadMethods}.

Definition Get (b : Balancer) (i : value) (keys : list value) :=
  on_Slave b (fun a => DbMap_Get a i keys).

Definition Select (b : Balancer) (i : value) (query : string) (args : list value) :=
  on_Slave b (fun a => DbMap_Select a i query args).

Definition SelectFloat (b : Balancer) (query : string) (args : list value) :=
  on_Slave b (fun a => DbMap_SelectFloat a query args).

Definition SelectInt (b : Balancer) (query : string) (args : list value) :=
  on_Slave b (fun a => DbMap_SelectInt a query args).

Definition SelectNullFloat (b : Balancer) (query : string) (args : list value) :=
  on_Slave b (fun a => DbMap_SelectNullFloat a query args).

Definition SelectNullInt (b : Balancer) (query : string) (args : list value) :=
  on_Slave b (fun a => DbMap_SelectNullInt a query args).

Definition SelectNullStr (b : Balancer) (query : string) (args : list value) :=
  on_Slave b (fun a => DbMap_SelectNullStr a query args).

Definition SelectOne (b : Balancer) (holder : value) (query : string) (args : list value) :=
  on_Slave b (fun a => DbMap_SelectOne a holder query args).

Definition SelectStr (b : Balancer) (query : string) (args : list value) :=
  on_Slave b (fun a => DbMap_SelectStr a query args).

End ReadMethods.

(** ** Tracing ([gorp_api.go])

    The trace setting of the handles, as [gorp] keeps it per [DbMap]: a
    handle that is being traced has the prefix and the logger of the last
    [TraceOn] it received; [TraceOff] removes them. *)
Section Tracing.
Context {GorpLogger : Type}.

Definition tracing : Type := gmap loc (string * GorpLogger).

(** A computation on the trace settings: the settings it leaves, also when
    it panics on the way, and whether it returned. *)
Definition traced : Type := (gmap loc (string * GorpLogger) * outcome unit)%type.

(** [db.TraceOn(prefix, logger)] *)
Definition DbMap_TraceOn (db : ptr) (prefix : string) (logger : GorpLogger)
    (t : gmap loc (string * GorpLogger)) : traced :=
  match db with
  | None => (t, Panic "invalid memory address or nil pointer dereference")
  | Some a => (<[a := (prefix, logger)]> t, Done tt)
  end.

(** [db.TraceOff()] *)
Definition DbMap_TraceOff (db : ptr) (t : gmap loc (string * GorpLogger)) : traced :=
  match db with
  | None => (t, Panic "invalid memory address or nil pointer dereference")
  | Some a => (delete a t, Done tt)
  end.

(** [for _, s := range b.slaves] of [TraceOn] *)
Fixpoint TraceOn_loop (slaves : list ptr) (prefix : string) (logger : GorpLogger)
    (t : gmap loc (string * GorpLogger)) : traced :=
  match slaves with
  | [] => (t, Done tt)
  | s :: slaves' =>
      match DbMap_TraceOn s (prefix ++ " <slave>")%string logger t with
      | (t', Done _) => TraceOn_loop slaves' prefix logger t'
      | (t', Panic msg) => (t', Panic msg)
      end
  end.

Definition TraceOn (b : Balancer) (prefix : string) (logger : GorpLogger)
    (t : gmap loc (string * GorpLogger)) : traced :=
  match TraceOn_loop (Rev1.slaves b) prefix logger t with
  | (t', Done _) => DbMap_TraceOn (DbMap b) (prefix ++ " <master>")%string logger t'
  | (t', Panic msg) => (t', Panic msg)
  end.

(** [for _, db := range b.GetAllDbs()] of [TraceOff] *)
Fixpoint TraceOff_loop (dbs : list ptr) (t : gmap loc (string * GorpLogger)) : traced :=
  match dbs with
  | [] => (t, Done tt)
  | db :: dbs' =>
      match DbMap_TraceOff db t with
      | (t', Done _) => TraceOff_loop dbs' t'
      | (t', Panic msg) => (t', Panic msg)
      end
  end.

Definition TraceOff (b : Balancer) (t : gmap loc (string * GorpLogger)) : traced :=
  TraceOff_loop (GetAllDbs b) t.

End Tracing.

(** ** Lists of data source names *)

(** A name that holds no separator. *)
Definition sep_free (s : string) : Prop :=
  ";"%char ∉ String.list_ascii_of_string s.

(** A piece that [NewBalancer] of the second revision opens: the empty
    ones are skipped. *)
Definition opens `{Collaborators} (driverName : string) (c : string) : Prop :=
  c = EmptyString ∨ ∃ db, sql_Open driverName c = Ok db.

(** The cell that [NewBalancer] allocates for an opened data source. *)
Definition cell_of `{Collaborators} (dialect : gorp_Dialect) (db : sql_DB) : gorp_DbMap :=
  mkDbMap db dialect.

(** ** What every topology satisfies *)

(** The counter is a [uint64]. *)
Definition counter_in_range (b : Balancer) : Prop :=
  (0 <= count b < uint64_modulus)%Z.

(** The topologies of the first revision: the flag tells whether the master
    is a read target, and then the master is the last one; no read target
    is listed twice; no handle is nil. *)
Definition Rev1_invariant (b : Balancer) : Prop :=
  (masterCanRead b = true ↔ DbMap b ∈ replicas b) ∧
  (masterCanRead b = true -> last (replicas b) = Some (DbMap b)) ∧
  NoDup (replicas b) ∧
  counter_in_range b ∧
  nil ∉ GetAllDbs b.

(** The topologies of the second revision: there is a read target; the flag
    tells whether the master is one; no read target is listed twice; a read
    target is nil only if it is the master. *)
Definition Rev2_invariant (b : Balancer) : Prop :=
  replicas b ≠ [] ∧
  (masterCanRead b = true ↔ DbMap b ∈ replicas b) ∧
  NoDup (replicas b) ∧
  counter_in_range b ∧
  (nil ∈ replicas b -> DbMap b = nil).

(** ** Topologies that have not been read from *)

Section Unread.
Context `{Collaborators}.

(** The topologies of the first revision on which no read selection has
    been made since construction: what [NewBalancer] returns, reconfigured
    any number of times. *)
Inductive Rev1_unread : Balancer -> Prop :=
| Rev1_unread_NewBalancer driverName dialect sources h b h' :
    Rev1.NewBalancer driverName dialect sources h = Ok (b, h') -> Rev1_unread b
| Rev1_unread_MasterCanRead read b b' :
    Rev1_unread b -> Rev1.MasterCanRead read b = Done b' -> Rev1_unread b'.

(** The same for the second revision. *)
Inductive Rev2_unread : Balancer -> Prop :=
| Rev2_unread_NewBalancer driverName dialect sources h b h' :
    Rev2.NewBalancer driverName dialect sources h = Ok (b, h') -> Rev2_unread b
| Rev2_unread_MasterCanRead read b b' :
    Rev2_unread b -> Rev2.MasterCanRead read b = Done b' -> Rev2_unread b'.

End Unread.

(** ** More of the concrete worlds *)
Module MoreScenario.

(** Read methods that answer with the address of the handle they ran on. *)
Definition echo : ReadMethods := {|
  value := string;
  float64 := Z;
  NullFloat64 := option Z;
  NullInt64 := option Z;
  NullString := option string;
  DbMap_Get := fun a i _ => (i, None);
  DbMap_Select := fun a _ _ args => (args, None);
  DbMap_SelectFloat := fun a _ _ => (Z.of_nat a, None);
  DbMap_SelectInt := fun a _ _ => (Z.of_nat a, None);
  DbMap_SelectNullFloat := fun a _ _ => (Some (Z.of_nat a), None);
  DbMap_SelectNullInt := fun a _ _ => (Some (Z.of_nat a), None);
  DbMap_SelectNullStr := fun a query _ => (Some query, None);
  DbMap_SelectOne := fun a _ _ _ => None;
  DbMap_SelectStr := fun a query _ => (query, None)
|}.

(** A master that is also the last of three read targets: what
    [MasterCanRead(true)] makes of [Scenario.one_two]. *)
Definition one_two_master : Balancer :=
  {| DbMap := Some 0; replicas := [Some 1; Some 2; Some 0]; count := 0;
     masterCanRead := true |}.

(** What the second revision builds from the empty sources. *)
Definition nil_master : Balancer :=
  {| DbMap := nil; replicas := [nil]; count := 0; masterCanRead := true |}.

(** A master and three replicas: what ["A;B;C;D"] builds. *)
Definition one_two_three : Balancer :=
  {| DbMap := Some 0; replicas := [Some 1; Some 2; Some 3]; count := 0;
     masterCanRead := false |}.

End MoreScenario.

(** * Properties *)

(** ** Small facts about the embedding *)

Lemma set_count_same (b : Balancer) : set_count b (count b) = b.
Proof. by destruct b. Qed.

Lemma AddUint64_1_no_wrap (c : Z) :
  (0 <= c)%Z -> (c + 1 < uint64_modulus)%Z -> AddUint64_1 c = (c + 1)%Z.
Proof. intros ??. unfold AddUint64_1. apply Z.mod_small. lia. Qed.

Lemma AddUint64_1_range (c : Z) : (0 <= AddUint64_1 c < uint64_modulus)%Z.
Proof. unfold AddUint64_1. apply Z.mod_pos_bound. reflexivity. Qed.

Lemma Split_nonempty (s : string) (sep : Ascii.ascii) : 0 < length (Split s sep).
Proof.
  induction s as [|c s IH]; simpl; [lia|].
  destruct (Ascii.eqb c sep); simpl; [lia|].
  destruct (Split s sep); simpl in *; lia.
Qed.

(** ** Round robin *)

(** The index [replica] computes is inside the list whenever the list is
    not empty, and the list itself is left alone. *)
Lemma replica_index_bound (b : Balancer) :
  replicas b ≠ [] ->
  ∃ i b', replica b = Done (i, b') ∧
          (0 <= i < Z.of_nat (length (replicas b)))%Z ∧
          replicas b' = replicas b.
Proof.
  intros Hne. unfold replica.
  assert (0 < length (replicas b)) by (destruct (replicas b); [done|simpl; lia]).
  case_decide as Hone.
  - exists 0%Z, b. split_and!; done || lia.
  - case_decide as Hzero; [lia|].
    eexists _, _. split; [done|]. split; [|done].
    apply Z.mod_pos_bound. lia.
Qed.

(** With more than one read target and no wrap-around of the counter, the
    read goes to the index after the counter, modulo the length. *)
Lemma Replica_step (b : Balancer) :
  1 < length (replicas b) ->
  (0 <= count b)%Z -> (count b + 1 < uint64_modulus)%Z ->
  ∃ db, replicas b !! Z.to_nat ((count b + 1) mod Z.of_nat (length (replicas b))) = Some db ∧
        Replica b = Done (db, set_count b (count b + 1)).
Proof.
  intros Hk Hc Hw. unfold Replica, replica.
  case_decide; [lia|]. case_decide; [lia|].
  rewrite AddUint64_1_no_wrap by done. simpl.
  pose proof (Z.mod_pos_bound (count b + 1) (Z.of_nat (length (replicas b)))) as Hb.
  case_decide; [|lia].
  destruct (replicas b !! _) as [db|] eqn:Hl.
  - by exists db.
  - apply lookup_ge_None in Hl. lia.
Qed.

Lemma Replica_n_spec (n : nat) : ∀ b : Balancer,
  1 < length (replicas b) ->
  (0 <= count b)%Z -> (count b + Z.of_nat n < uint64_modulus)%Z ->
  ∃ dbs, Replica_n n b = Done (dbs, set_count b (count b + Z.of_nat n)) ∧
         length dbs = n ∧
         ∀ j, j < n ->
           dbs !! j = replicas b !! Z.to_nat ((count b + Z.of_nat j + 1)
                                     mod Z.of_nat (length (replicas b))).
Proof.
  induction n as [|n IH]; intros b Hk Hc Hw.
  - exists []. simpl. rewrite Z.add_0_r, set_count_same. split_and!; [done..|lia].
  - destruct (Replica_step b) as (db & Hdb & HR); [done|done|lia|].
    destruct (IH (set_count b (count b + 1))) as (dbs & Hn & Hlen & Hj);
      [done|simpl; lia|simpl; lia|].
    exists (db :: dbs). simpl. rewrite HR. simpl. rewrite Hn. simpl.
    split_and!.
    + do 2 f_equal. unfold set_count. simpl. f_equal. lia.
    + by rewrite Hlen.
    + intros [|j] Hlt; simpl.
      * rewrite Z.add_0_r. done.
      * rewrite Hj by lia. simpl. do 3 f_equal. lia.
Qed.

(** Without wrap-around of the counter, [k] reads over [k > 1] read targets
    return the list rotated to start at the index after the counter. *)
Lemma Replica_n_rotation (b : Balancer) :
  let k := length (replicas b) in
  1 < k -> (0 <= count b)%Z -> (count b + Z.of_nat k < uint64_modulus)%Z ->
  Replica_n k b =
    Done (rotate (Z.to_nat ((count b + 1) mod Z.of_nat k)) (replicas b),
          set_count b (count b + Z.of_nat k)).
Proof.
  intros k Hk Hc Hw.
  destruct (Replica_n_spec k b) as (dbs & Hn & Hlen & Hj); [done..|].
  rewrite Hn. do 2 f_equal.
  apply list_eq. intros j.
  destruct (decide (j < k)) as [Hlt|Hge].
  - rewrite Hj, lookup_rotate_r by done. f_equal.
    unfold rotate_nat_add. fold k. f_equal.
    rewrite Z2Nat.id by (apply Z.mod_pos_bound; lia).
    rewrite Zplus_mod_idemp_l. f_equal. lia.
  - rewrite !lookup_ge_None_2; [done| |lia].
    rewrite length_rotate. fold k. lia.
Qed.

(** Why wrap-around is excluded: with three read targets and the counter
    two short of [2^64], two reads in a row return the same target. *)
Lemma Replica_n_at_wrap_around :
  Replica_n 2 {| DbMap := Some 0; replicas := [Some 1; Some 2; Some 3];
                 count := 2 ^ 64 - 2; masterCanRead := false |} =
  Done ([Some 1; Some 1],
        {| DbMap := Some 0; replicas := [Some 1; Some 2; Some 3];
           count := 0; masterCanRead := false |}).
Proof. reflexivity. Qed.

(** A rotation by one puts the second element first and the first last. *)
Lemma rotate_one {A : Type} (l : list A) :
  1 < length l -> rotate 1 l = drop 1 l ++ take 1 l.
Proof. intros Hk. unfold rotate. by rewrite Nat.mod_small. Qed.

Lemma rotate_Permutation {A : Type} (n : nat) (l : list A) : rotate n l ≡ₚ l.
Proof. unfold rotate. rewrite Permutation_app_comm. by rewrite take_drop. Qed.

(** ** Counting occurrences *)

Lemma occurrences_app (p : ptr) (l1 l2 : list ptr) :
  occurrences p (l1 ++ l2) = occurrences p l1 + occurrences p l2.
Proof. unfold occurrences. by rewrite filter_app, length_app. Qed.

Lemma occurrences_absent (p : ptr) (l : list ptr) :
  p ∉ l -> occurrences p l = 0.
Proof.
  unfold occurrences. induction l as [|q l IH]; [done|].
  intros Hnotin. apply not_elem_of_cons in Hnotin as [Hne Hl].
  rewrite filter_cons_False by congruence. auto.
Qed.

Lemma occurrences_present (p : ptr) (l : list ptr) :
  p ∈ l -> 0 < occurrences p l.
Proof.
  unfold occurrences. induction l as [|q l IH]; [by intros ?%elem_of_nil|].
  intros [->|Hl]%elem_of_cons.
  - rewrite filter_cons_True by done. simpl. lia.
  - rewrite filter_cons. case_decide; simpl; auto with lia.
Qed.

Lemma occurrences_self (p : ptr) : occurrences p [p] = 1.
Proof. unfold occurrences. by rewrite filter_cons_True. Qed.

(** Filtering the master out shortens the list by its occurrences. *)
Lemma length_without (p : ptr) (l : list ptr) :
  length (filter (fun db => db ≠ p) l) + occurrences p l = length l.
Proof.
  unfold occurrences. induction l as [|q l IH]; [done|].
  rewrite !filter_cons. repeat case_decide; simpl; try done; lia.
Qed.

Lemma calls_on_each (a : loc) (c : call) (addrs : list loc) :
  calls_on a (each c addrs) = occurrences (Some a) (Some <$> addrs).
Proof.
  unfold calls_on, occurrences, each. induction addrs as [|x l IH]; [done|].
  rewrite !fmap_cons, !filter_cons. simpl.
  repeat case_decide; simpl;
    first [congruence | exact IH | f_equal; exact IH].
Qed.

(** ** Construction *)

Lemma under_construction_zero (n : nat) : under_construction n Balancer_zero.
Proof.
  unfold under_construction. simpl.
  split_and!; [done|done|constructor|constructor|done].
Qed.

(** The master set to a fresh cell. *)
Lemma under_construction_master (n : nat) (b : Balancer) :
  under_construction n b -> under_construction (S n) (set_DbMap b (Some n)).
Proof.
  intros (Hc & Hf & Hall & Hnd & _). unfold under_construction. simpl.
  split_and!; [done|done| |done|lia|].
  - eapply Forall_impl; [exact Hall|]. intros p (a & -> & ?). exists a. split; [done|lia].
  - intros Hin. rewrite Forall_forall in Hall.
    destruct (Hall _ Hin) as (a & [= <-] & ?). lia.
Qed.

(** A fresh cell appended to the list. *)
Lemma under_construction_append (n : nat) (b : Balancer) :
  under_construction n b ->
  under_construction (S n) (set_replicas b (replicas b ++ [Some n])).
Proof.
  intros (Hc & Hf & Hall & Hnd & Hm). unfold under_construction. simpl.
  assert (Hfresh : Some n ∉ replicas b).
  { intros Hin. rewrite Forall_forall in Hall.
    destruct (Hall _ Hin) as (a & [= <-] & ?). lia. }
  split_and!; [done|done| | |].
  - apply Forall_app. split.
    + eapply Forall_impl; [exact Hall|]. intros p (a & -> & ?). exists a. split; [done|lia].
    + constructor; [|constructor]. exists n. split; [done|lia].
  - apply NoDup_app. split_and!; [done| |apply NoDup_singleton].
    intros p Hp ->%list_elem_of_singleton. done.
  - destruct (DbMap b) as [a|]; [|done]. destruct Hm as [Hlt Hnotin].
    split; [lia|]. rewrite elem_of_app, list_elem_of_singleton.
    intros [?|[= ->]]; [done|lia].
Qed.

Section Construction.
Context `{Collaborators}.

Lemma length_alloc (h : heap) (v : gorp_DbMap) : length (alloc h v).2 = S (length h).
Proof. unfold alloc. simpl. rewrite length_app. simpl. lia. Qed.

Lemma Rev1_loop_under_construction driverName dialect (conns : list string) :
  ∀ i b h b' h',
    under_construction (length h) b ->
    Rev1.NewBalancer_loop driverName dialect i conns b h = Ok (b', h') ->
    under_construction (length h') b'.
Proof.
  induction conns as [|c conns IH]; intros i b h b' h' Hinv Hloop; simpl in Hloop.
  - by injection Hloop as <- <-.
  - destruct (sql_Open driverName c) as [s|err]; [|done].
    eapply IH; [|exact Hloop]. rewrite length_app. simpl.
    replace (length h + 1) with (S (length h)) by lia.
    case_decide; [by apply under_construction_master|by apply under_construction_append].
Qed.

Lemma Rev2_loop_under_construction driverName dialect (conns : list string) :
  ∀ i b h b' h',
    under_construction (length h) b ->
    Rev2.NewBalancer_loop driverName dialect i conns b h = Ok (b', h') ->
    under_construction (length h') b'.
Proof.
  induction conns as [|c conns IH]; intros i b h b' h' Hinv Hloop; simpl in Hloop.
  - by injection Hloop as <- <-.
  - case_decide; [by eapply IH|].
    destruct (sql_Open driverName c) as [s|err]; [|done].
    eapply IH; [|exact Hloop]. rewrite length_app. simpl.
    replace (length h + 1) with (S (length h)) by lia.
    case_decide; [by apply under_construction_master|by apply under_construction_append].
Qed.

(** What a finished construction leaves, whichever the loop: the counter
    at zero, distinct read targets, at least one of them, and a flag that
    tells whether the master is among them. *)
Lemma finish_construction (n : nat) (b : Balancer) :
  under_construction n b ->
  let b' := if decide (length (replicas b) = 0)
            then set_masterCanRead (set_replicas b (replicas b ++ [DbMap b])) true
            else b in
  count b' = 0%Z ∧ NoDup (replicas b') ∧ Rev1_consistent b' ∧ Rev2_consistent b'.
Proof.
  intros (Hc & Hf & Hall & Hnd & Hm). simpl. case_decide as Hlen.
  - apply nil_length_inv in Hlen. rewrite Hlen. simpl.
    split_and!; [done|apply NoDup_singleton| |].
    + unfold Rev1_consistent. simpl. exists []. split; [done|apply not_elem_of_nil].
    + split; [done|]. simpl. apply occurrences_self.
  - assert (DbMap b ∉ replicas b).
    { destruct (DbMap b) as [a|]; [by destruct Hm|].
      intros Hin. rewrite Forall_forall in Hall. by destruct (Hall _ Hin) as (a & ? & ?). }
    split_and!; [done|done| |].
    + unfold Rev1_consistent. by rewrite Hf.
    + split; [by intros Hnil; rewrite Hnil in Hlen|]. by rewrite Hf.
Qed.

Lemma Rev1_NewBalancer_post driverName dialect sources h b h' :
  Rev1.NewBalancer driverName dialect sources h = Ok (b, h') ->
  count b = 0%Z ∧ NoDup (replicas b) ∧ Rev1_consistent b ∧ Rev2_consistent b.
Proof.
  unfold Rev1.NewBalancer. case_decide; [done|].
  destruct (Rev1.NewBalancer_loop _ _ _ _ _ _) as [[b0 h0]|err] eqn:Hloop; [|done].
  intros [= <- <-]. eapply finish_construction.
  eapply Rev1_loop_under_construction; [|exact Hloop]. apply under_construction_zero.
Qed.

Lemma Rev2_NewBalancer_post driverName dialect sources h b h' :
  Rev2.NewBalancer driverName dialect sources h = Ok (b, h') ->
  count b = 0%Z ∧ NoDup (replicas b) ∧ Rev1_consistent b ∧ Rev2_consistent b.
Proof.
  unfold Rev2.NewBalancer. case_decide; [done|].
  destruct (Rev2.NewBalancer_loop _ _ _ _ _ _) as [[b0 h0]|err] eqn:Hloop; [|done].
  intros [= <- <-]. eapply finish_construction.
  eapply Rev2_loop_under_construction; [|exact Hloop]. apply under_construction_zero.
Qed.

End Construction.

(** ** Reconfiguration and reads keep the topology consistent *)

Lemma Replica_frame (b : Balancer) (db : ptr) (b' : Balancer) :
  Replica b = Done (db, b') -> ∃ c, b' = set_count b c.
Proof.
  unfold Replica. destruct (replica b) as [[i b0]|msg] eqn:Hr; simpl; [|done].
  assert (∃ c, b0 = set_count b c) as [c ->].
  { unfold replica in Hr. repeat case_decide; try done; injection Hr as <- <-.
    - exists (count b). by destruct b.
    - by eexists. }
  case_decide; [|done]. destruct (_ !! _); [|done]. intros [= _ <-]. by eexists.
Qed.

Lemma Rev2_MasterCanRead_consistent (read : bool) (b b' : Balancer) :
  Rev2_consistent b -> Rev2.MasterCanRead read b = Done b' -> Rev2_consistent b'.
Proof.
  intros [Hne Hflag]. unfold Rev2.MasterCanRead.
  destruct read, (masterCanRead b) eqn:Hf; simpl; rewrite ?Hf; simpl.
  - intros [= <-]. split; [done|]. by rewrite Hf.
  - intros [= <-]. split; simpl.
    + by destruct (replicas b).
    + by rewrite occurrences_app, occurrences_absent, occurrences_self.
  - case_bool_decide as Hlen; intros [= <-]; [|split; [done|by rewrite Hf]].
    pose proof (length_without (DbMap b) (replicas b)) as Hw.
    split; simpl; unfold Rev2.without_master.
    + intros Hnil. rewrite Hnil in Hw. simpl in Hw. lia.
    + intros [Hneq _]%list_elem_of_filter. done.
  - intros [= <-]. split; [done|]. by rewrite Hf.
Qed.

Lemma Rev1_MasterCanRead_consistent (read : bool) (b b' : Balancer) :
  Rev1_consistent b -> Rev1.MasterCanRead read b = Done b' -> Rev1_consistent b'.
Proof.
  unfold Rev1_consistent, Rev1.MasterCanRead, Rev1.slice_to, Rev1.slaves.
  destruct read, (masterCanRead b) eqn:Hf; simpl; rewrite ?Hf; simpl.
  - by intros Hl [= <-].
  - intros Hl [= <-]. simpl. by exists (replicas b).
  - intros (l & Hl & Hnotin). case_decide as Hlen; [|done]. simpl.
    rewrite Hf. simpl. intros [= <-]. simpl.
    intros (i & Hi & Hlt)%elem_of_take.
    rewrite Hl, length_app in Hlt. simpl in Hlt.
    rewrite Hl, lookup_app_l in Hi by lia.
    apply Hnotin. by eapply list_elem_of_lookup_2.
  - by intros Hl [= <-].
Qed.

Section Invariants.
Context `{Collaborators}.

(** Every topology of the first revision is consistent. *)
Lemma Rev1_reachable_consistent (b : Balancer) :
  Rev1.reachable b -> Rev1_consistent b.
Proof.
  induction 1 as [driverName dialect sources h b h' Hnew
                 |read b b' _ IH Hstep|b db b' _ IH Hstep].
  - by apply Rev1_NewBalancer_post in Hnew as (_ & _ & ? & _).
  - by eapply Rev1_MasterCanRead_consistent.
  - apply Replica_frame in Hstep as [c ->]. done.
Qed.

(** Every topology of the second revision is consistent, and so never
    without a read target. *)
Lemma Rev2_reachable_consistent (b : Balancer) :
  Rev2.reachable b -> Rev2_consistent b.
Proof.
  induction 1 as [driverName dialect sources h b h' Hnew
                 |read b b' _ IH Hstep|b db b' _ IH Hstep].
  - by apply Rev2_NewBalancer_post in Hnew as (_ & _ & _ & ?).
  - by eapply Rev2_MasterCanRead_consistent.
  - apply Replica_frame in Hstep as [c ->]. done.
Qed.

End Invariants.

(** ** Fan-out *)

Lemma GetAllDbs_cons (b : Balancer) : GetAllDbs b = DbMap b :: replicas b.
Proof. done. Qed.

(** A step of a loop over handles, at a handle that is not nil. *)
Lemma bind_on_handle {A B : Type} (a : loc) (c : call) (ans : loc -> A) (k : A -> M B) :
  on_handle (Some a) c ans ≫= k = ((a, c) :: (k (ans a)).1, (k (ans a)).2).
Proof. unfold mbind, M_bind. simpl. by destruct (k (ans a)). Qed.

Lemma bind_on_nil {A B : Type} (c : call) (ans : loc -> A) (k : A -> M B) :
  on_handle None c ans ≫= k =
  ([], Panic "invalid memory address or nil pointer dereference").
Proof. done. Qed.

(** A tuner calls every element of the list it is given, in order. *)
Lemma tune_loop_each (c : call) (addrs : list loc) :
  tune_loop c (Some <$> addrs) = (each c addrs, Done tt).
Proof.
  induction addrs as [|a addrs IH]; [done|].
  rewrite fmap_cons. cbn [tune_loop]. rewrite bind_on_handle, IH. done.
Qed.

(** A loop that tries every handle and keeps the last error, as [Ping] and
    [Close] of the second revision are written: on handles that are not
    nil, every one of them is called, and the error returned is that of the
    last one that failed, or the one the loop started with. *)
Lemma try_all_spec (c : call) (ans : loc -> option error)
    (loop : list ptr -> option error -> M (option error))
    (loop_nil : ∀ err, loop [] err = mret err)
    (loop_cons : ∀ db dbs err,
       loop (db :: dbs) err =
       on_handle db c ans ≫= fun innerErr =>
         loop dbs (match innerErr with Some e => Some e | None => err end))
    (addrs : list loc) : ∀ err,
  calls (loop (Some <$> addrs) err) = each c addrs ∧
  ∃ r, outcome_of (loop (Some <$> addrs) err) = Done r ∧
       (r = None ↔ err = None ∧ Forall (fun a => ans a = None) addrs) ∧
       ∀ e, r = Some e ->
         (∃ l1 a l2, addrs = l1 ++ a :: l2 ∧ ans a = Some e ∧
                     Forall (fun a' => ans a' = None) l2) ∨
         (err = Some e ∧ Forall (fun a => ans a = None) addrs).
Proof.
  induction addrs as [|a addrs IH]; intros err.
  - rewrite fmap_nil, loop_nil. split; [done|]. exists err. split; [done|]. split.
    + split; [intros ->; by split|by intros [-> _]].
    + intros e ->. right. by split.
  - rewrite fmap_cons, loop_cons, bind_on_handle.
    destruct (IH (match ans a with Some e => Some e | None => err end))
      as (Hcalls & r & Hr & Hnone & Hsome).
    split; [unfold calls in *; simpl; by rewrite Hcalls|].
    exists r. split; [done|]. destruct (ans a) as [e0|] eqn:Ha; split.
    + split; [intros Hrn; by apply Hnone in Hrn as [? _]|].
      intros [_ Hall]. apply Forall_cons in Hall as [? _]. congruence.
    + intros e He. left.
      destruct (Hsome e He) as [(l1 & x & l2 & -> & Hx & Hl2)|[[= ->] Hall]].
      * by exists (a :: l1), x, l2.
      * by exists [], a, addrs.
    + split.
      * intros Hrn. apply Hnone in Hrn as [-> Hall]. split; [done|by constructor].
      * intros [-> Hall]. apply Forall_cons in Hall as [_ Hall]. by apply Hnone.
    + intros e He.
      destruct (Hsome e He) as [(l1 & x & l2 & -> & Hx & Hl2)|[-> Hall]].
      * left. by exists (a :: l1), x, l2.
      * right. split; [done|by constructor].
Qed.

Section FanOut.
Context `{Collaborators}.

Lemma Rev2_Ping_loop_all (addrs : list loc) (err : option error) :
  calls (Rev2.Ping_loop (Some <$> addrs) err) = each CPing addrs ∧
  ∃ r, outcome_of (Rev2.Ping_loop (Some <$> addrs) err) = Done r ∧
       (r = None ↔ err = None ∧ Forall (fun a => Db_Ping a = None) addrs) ∧
       ∀ e, r = Some e ->
         (∃ l1 a l2, addrs = l1 ++ a :: l2 ∧ Db_Ping a = Some e ∧
                     Forall (fun a' => Db_Ping a' = None) l2) ∨
         (err = Some e ∧ Forall (fun a => Db_Ping a = None) addrs).
Proof. by apply try_all_spec. Qed.

Lemma Rev2_Close_loop_all (addrs : list loc) (err : option error) :
  calls (Rev2.Close_loop (Some <$> addrs) err) = each CClose addrs ∧
  ∃ r, outcome_of (Rev2.Close_loop (Some <$> addrs) err) = Done r ∧
       (r = None ↔ err = None ∧ Forall (fun a => Db_Close a = None) addrs) ∧
       ∀ e, r = Some e ->
         (∃ l1 a l2, addrs = l1 ++ a :: l2 ∧ Db_Close a = Some e ∧
                     Forall (fun a' => Db_Close a' = None) l2) ∨
         (err = Some e ∧ Forall (fun a => Db_Close a = None) addrs).
Proof. by apply try_all_spec. Qed.

(** The loop of the first revision never calls more than the handles it
    is given, in order. *)
Lemma Rev1_Ping_loop_prefix (addrs : list loc) :
  calls (Rev1.Ping_loop (Some <$> addrs)) `prefix_of` each CPing addrs.
Proof.
  induction addrs as [|a addrs IH]; [done|].
  rewrite fmap_cons. cbn [Rev1.Ping_loop]. rewrite bind_on_handle.
  destruct (Db_Ping a); unfold calls, each in *; simpl.
  - by apply prefix_cons, prefix_nil.
  - by apply prefix_cons.
Qed.

End FanOut.

(** ** Statement preparation *)

Section PrepareFacts.
Context `{Collaborators}.

(** When every remaining handle prepares, the loop calls each of them and
    fills the rest of the array with their statements. *)
Lemma Prepare_loop_ok (query : string) (addrs : list loc) (ss : list sql_Stmt) :
  Forall2 (prepared query) addrs ss ->
  ∀ (pre : list ptr) (stmts : list (option sql_Stmt)),
    length stmts = length pre + length addrs ->
    Prepare_loop query (pre ++ (Some <$> addrs)) (length addrs) (length pre) stmts =
    (each (CPrepare query) addrs,
     Done (Ok (take (length pre) stmts ++ (Some <$> ss)))).
Proof.
  induction 1 as [|a s addrs ss Ha _ IH]; intros pre stmts Hlen.
  - simpl. rewrite app_nil_r, take_ge by (simpl in Hlen; lia). done.
  - cbn [length Prepare_loop].
    rewrite lookup_app_r, Nat.sub_diag by lia. cbn [fmap list_fmap lookup list_lookup].
    rewrite bind_on_handle. unfold prepared in Ha. rewrite Ha.
    rewrite (cons_middle (Some a) pre), app_assoc.
    replace (S (length pre)) with (length (pre ++ [Some a]))
      by (rewrite length_app; simpl; lia).
    rewrite IH; [|rewrite length_insert, length_app; cbn [length] in *; lia].
    rewrite length_app. simpl. rewrite Nat.add_1_r.
    erewrite take_S_r by (apply list_lookup_insert_eq; simpl in Hlen; lia).
    rewrite take_insert_ge by lia. simpl. by rewrite <- app_assoc.
Qed.

(** When a handle fails after some that prepared, the loop calls those and
    the failing one, nothing after it, and returns its error. *)
Lemma Prepare_loop_err (query : string) (l1 : list loc) (ss : list sql_Stmt)
    (a : loc) (e : error) (rest : list ptr) :
  Forall2 (prepared query) l1 ss ->
  DbMap_Prepare a query = Err e ->
  ∀ (pre : list ptr) (stmts : list (option sql_Stmt)),
    Prepare_loop query (pre ++ (Some <$> l1) ++ Some a :: rest)
      (length l1 + S (length rest)) (length pre) stmts =
    (each (CPrepare query) (l1 ++ [a]), Done (Err e)).
Proof.
  intros Hl1 Ha. induction Hl1 as [|x s l1 ss Hx _ IH]; intros pre stmts.
  - cbn [length Prepare_loop Nat.add fmap list_fmap app].
    rewrite lookup_app_r, Nat.sub_diag by lia. cbn [lookup list_lookup].
    rewrite bind_on_handle, Ha. done.
  - cbn [length Prepare_loop Nat.add fmap list_fmap app].
    rewrite lookup_app_r, Nat.sub_diag by lia. cbn [lookup list_lookup].
    rewrite bind_on_handle. unfold prepared in Hx. rewrite Hx.
    rewrite (cons_middle (Some x) pre), app_assoc.
    replace (S (length pre)) with (length (pre ++ [Some x]))
      by (rewrite length_app; simpl; lia).
    fold (@fmap list _ _ _ (@Some loc) l1). rewrite IH. done.
Qed.

(** A loop that returns statements prepared on every handle it visited. *)
Lemma Prepare_loop_Ok_inv (query : string) (dbs : list ptr) (n : nat) :
  ∀ i stmts st,
    outcome_of (Prepare_loop query dbs n i stmts) = Done (Ok st) ->
    ∀ j, i <= j < i + n ->
      ∃ a s, dbs !! j = Some (Some a) ∧ DbMap_Prepare a query = Ok s.
Proof.
  induction n as [|n IH]; intros i stmts st Hrun j Hj; [lia|].
  cbn [Prepare_loop] in Hrun.
  destruct (dbs !! i) as [[a|]|] eqn:Hi; [|done..].
  rewrite bind_on_handle in Hrun. unfold outcome_of in *. simpl in Hrun.
  destruct (DbMap_Prepare a query) as [s|e] eqn:Ha; [|done].
  destruct (decide (j = i)) as [->|Hne]; [by exists a, s|].
  eapply IH; [exact Hrun|lia].
Qed.

End PrepareFacts.

(** * The properties of the specification *)

(** ** Read selection *)

(** C7. On a balancer whose list of read targets is not empty, a read
    selection computes an index below the length of the list, does not
    panic, and returns the element of the list at that index; the list is
    left as it was. [Slave] of the first revision is the same function. *)
Theorem Replica_in_range (b : Balancer) :
  replicas b ≠ [] ->
  ∃ i db b',
    replica b = Done (i, b') ∧
    (0 <= i < Z.of_nat (length (replicas b)))%Z ∧
    replicas b !! Z.to_nat i = Some db ∧
    db ∈ replicas b ∧
    Replica b = Done (db, b') ∧
    Rev1.Slave b = Done (db, b') ∧
    replicas b' = replicas b.
Proof.
  intros Hne. destruct (replica_index_bound b Hne) as (i & b' & Hr & Hi & Hsame).
  destruct (replicas b !! Z.to_nat i) as [db|] eqn:Hdb.
  - exists i, db, b'.
    assert (Replica b = Done (db, b')) as HR.
    { unfold Replica. rewrite Hr. simpl. rewrite decide_True by lia.
      by rewrite Hsame, Hdb. }
    split_and!; try done; try lia.
    by eapply list_elem_of_lookup_2.
  - apply lookup_ge_None in Hdb. lia.
Qed.

Lemma Replica_in_range_witness :
  replicas Scenario.one_two ≠ [] ∧
  ∃ i db b',
    replica Scenario.one_two = Done (i, b') ∧
    (0 <= i < Z.of_nat (length (replicas Scenario.one_two)))%Z ∧
    replicas Scenario.one_two !! Z.to_nat i = Some db ∧
    db ∈ replicas Scenario.one_two ∧
    Replica Scenario.one_two = Done (db, b') ∧
    Rev1.Slave Scenario.one_two = Done (db, b') ∧
    replicas b' = replicas Scenario.one_two.
Proof.
  assert (Hne : replicas Scenario.one_two ≠ []) by (simpl; discriminate).
  split; [exact Hne|]. exact (Replica_in_range Scenario.one_two Hne).
Defined.

(** C5, as the specification states it, does not hold: two reads over the
    read targets [[1; 2]] of a fresh balancer return [2] and then [1]. *)
Lemma reads_not_in_insertion_order :
  ¬ (∀ b : Balancer,
       1 < length (replicas b) -> count b = 0%Z ->
       ∃ b', Replica_n (length (replicas b)) b = Done (replicas b, b')).
Proof.
  intros Hclaim.
  destruct (Hclaim Scenario.one_two) as [b' Hb']; [simpl; lia|done|].
  vm_compute in Hb'. discriminate Hb'.
Qed.

(** C5, amended. With [k > 1] read targets and a counter that does not
    wrap around within the next [2k] reads, [k] reads in a row return every
    position of the list once, in the order of the list taken cyclically
    from the index after the counter; the next [k] reads return the same
    sequence. On a fresh balancer (counter at zero) that sequence starts at
    the second element of the list and ends with its first. *)
Theorem reads_cycle_from_second_target (b : Balancer) :
  let k := length (replicas b) in
  let cycle := rotate (Z.to_nat ((count b + 1) mod Z.of_nat k)) (replicas b) in
  1 < k -> (0 <= count b)%Z -> (count b + 2 * Z.of_nat k < uint64_modulus)%Z ->
  Replica_n k b = Done (cycle, set_count b (count b + Z.of_nat k)) ∧
  Replica_n k (set_count b (count b + Z.of_nat k)) =
    Done (cycle, set_count b (count b + 2 * Z.of_nat k)) ∧
  cycle ≡ₚ replicas b ∧
  (count b = 0%Z -> cycle = drop 1 (replicas b) ++ take 1 (replicas b)).
Proof.
  intros k cycle Hk Hc Hw. split_and!.
  - apply Replica_n_rotation; [done|done|fold k; lia].
  - pose proof (Replica_n_rotation (set_count b (count b + Z.of_nat k))) as Hrot.
    simpl in Hrot. fold k in Hrot. rewrite Hrot by lia.
    unfold cycle, set_count. simpl. do 2 f_equal.
    + do 2 f_equal.
      replace (count b + Z.of_nat k + 1)%Z with (count b + 1 + 1 * Z.of_nat k)%Z by lia.
      apply Z.mod_add. lia.
    + f_equal. lia.
  - apply rotate_Permutation.
  - intros H0. unfold cycle. rewrite H0. simpl.
    rewrite Z.mod_small by lia. by apply rotate_one.
Qed.

Lemma reads_cycle_from_second_target_witness :
  1 < length (replicas Scenario.one_two) ∧
  (0 <= count Scenario.one_two)%Z ∧
  (count Scenario.one_two + 2 * Z.of_nat (length (replicas Scenario.one_two))
   < uint64_modulus)%Z ∧
  Replica_n 2 Scenario.one_two = Done ([Some 2; Some 1], set_count Scenario.one_two 2) ∧
  Replica_n 2 (set_count Scenario.one_two 2) =
    Done ([Some 2; Some 1], set_count Scenario.one_two 4) ∧
  [Some 2; Some 1] ≡ₚ replicas Scenario.one_two ∧
  (count Scenario.one_two = 0%Z ->
   [Some 2; Some 1] = drop 1 (replicas Scenario.one_two) ++ take 1 (replicas Scenario.one_two)).
Proof.
  assert (Hk : 1 < length (replicas Scenario.one_two)) by (simpl; lia).
  assert (Hc : (0 <= count Scenario.one_two)%Z) by (simpl; lia).
  assert (Hw : (count Scenario.one_two
                + 2 * Z.of_nat (length (replicas Scenario.one_two))
                < uint64_modulus)%Z) by reflexivity.
  split; [exact Hk|]. split; [exact Hc|]. split; [exact Hw|].
  exact (reads_cycle_from_second_target Scenario.one_two Hk Hc Hw).
Defined.

(** ** Reconfiguration *)

(** Enabling reads on the master where the flag is down and the master is
    not in the list, in the first revision. *)
Lemma Rev1_MasterCanRead_true (b : Balancer) :
  masterCanRead b = false -> DbMap b ∉ replicas b ->
  appends_master_once Rev1.MasterCanRead b.
Proof.
  intros Hf Hnotin.
  exists (set_masterCanRead (set_replicas b (replicas b ++ [DbMap b])) true).
  unfold Rev1.MasterCanRead, Rev1.slaves. rewrite Hf. simpl. rewrite Hf. simpl.
  split_and!; try done.
  by rewrite occurrences_app, occurrences_absent, occurrences_self.
Qed.

(** The same in the second revision. *)
Lemma Rev2_MasterCanRead_true (b : Balancer) :
  masterCanRead b = false -> DbMap b ∉ replicas b ->
  appends_master_once Rev2.MasterCanRead b.
Proof.
  intros Hf Hnotin.
  exists (set_masterCanRead (set_replicas b (replicas b ++ [DbMap b])) true).
  unfold Rev2.MasterCanRead. rewrite Hf. simpl.
  split_and!; try done.
  by rewrite occurrences_app, occurrences_absent, occurrences_self.
Qed.

Section Reconfiguration.
Context `{Collaborators}.

(** C8. On every topology, of either revision, in which the master is not
    a read target, [MasterCanRead(true)] appends the master to the list,
    where it then occurs once, and sets the flag; a second
    [MasterCanRead(true)] leaves the list and the flag as they are. *)
Theorem MasterCanRead_true_appends_once (b : Balancer) :
  DbMap b ∉ replicas b ->
  (Rev1.reachable b -> appends_master_once Rev1.MasterCanRead b) ∧
  (Rev2.reachable b -> appends_master_once Rev2.MasterCanRead b).
Proof.
  intros Hnotin. split; intros Hreach.
  - apply Rev1_MasterCanRead_true; [|done].
    apply Rev1_reachable_consistent in Hreach. unfold Rev1_consistent in Hreach.
    destruct (masterCanRead b); [|done].
    destruct Hreach as (l & Hl & _). exfalso. apply Hnotin.
    rewrite Hl, elem_of_app, list_elem_of_singleton. by right.
  - apply Rev2_MasterCanRead_true; [|done].
    apply Rev2_reachable_consistent in Hreach as [_ Hflag].
    destruct (masterCanRead b); [|done].
    exfalso. pose proof (occurrences_absent _ _ Hnotin). lia.
Qed.

(** The second revision and C1: with the master as the only read target,
    disabling reads on it changes nothing. *)
Lemma Rev2_MasterCanRead_false_only_master (b : Balancer) :
  replicas b = [DbMap b] -> Rev2.MasterCanRead false b = Done b.
Proof.
  intros Hl. unfold Rev2.MasterCanRead. simpl. rewrite Hl. simpl.
  by rewrite andb_false_r.
Qed.

(** On a topology of the second revision, a list that holds nothing but
    the master is the master alone. *)
Lemma Rev2_only_master (b : Balancer) :
  Rev2.reachable b -> (∀ p, p ∈ replicas b -> p = DbMap b) ->
  replicas b = [DbMap b].
Proof.
  intros [Hne Hflag]%Rev2_reachable_consistent Honly.
  destruct (replicas b) as [|p l] eqn:Hl; [done|].
  assert (p = DbMap b) as -> by (apply Honly; left).
  destruct (masterCanRead b).
  - destruct l as [|q l]; [done|].
    assert (q = DbMap b) as -> by (apply Honly; right; left).
    unfold occurrences in Hflag. rewrite !filter_cons_True in Hflag by done.
    simpl in Hflag. lia.
  - exfalso. apply Hflag. left.
Qed.

(** The second revision never drops a read target that is not the master,
    never empties the list of a topology and never panics. *)
Lemma Rev2_MasterCanRead_keeps_replicas (read : bool) (b : Balancer) :
  ∃ b', Rev2.MasterCanRead read b = Done b' ∧
        DbMap b' = DbMap b ∧
        (∀ p, p ∈ replicas b -> p ≠ DbMap b -> p ∈ replicas b') ∧
        (Rev2.reachable b -> replicas b' ≠ []).
Proof.
  assert (∃ b', Rev2.MasterCanRead read b = Done b') as [b' Hm] by by eexists.
  exists b'. split; [done|]. split_and!.
  - unfold Rev2.MasterCanRead in Hm.
    destruct read, (masterCanRead b) eqn:Hf; simpl in Hm; rewrite ?Hf in Hm;
      simpl in Hm; try case_bool_decide; by injection Hm as <-.
  - intros p Hp Hne. unfold Rev2.MasterCanRead in Hm.
    destruct read, (masterCanRead b) eqn:Hf; simpl in Hm; rewrite ?Hf in Hm;
      simpl in Hm; try case_bool_decide; injection Hm as <-; simpl; try done.
    + rewrite elem_of_app. by left.
    + unfold Rev2.without_master. by apply list_elem_of_filter.
  - intros Hreach.
    assert (Rev2.reachable b') as [Hne _]%Rev2_reachable_consistent; [|done].
    by eapply Rev2.reach_MasterCanRead.
Qed.

End Reconfiguration.

Lemma MasterCanRead_true_appends_once_witness :
  (DbMap Scenario.one_two ∉ replicas Scenario.one_two) ∧
  Rev2.reachable (H := Scenario.healthy) Scenario.one_two ∧
  appends_master_once Rev2.MasterCanRead Scenario.one_two.
Proof.
  assert (Hnotin : DbMap Scenario.one_two ∉ replicas Scenario.one_two).
  { simpl. intros Hin. by repeat (apply elem_of_cons in Hin as [?|Hin]; [done|]);
      apply elem_of_nil in Hin. }
  assert (Hreach : Rev2.reachable (H := Scenario.healthy) Scenario.one_two).
  { by apply (Rev2.reach_NewBalancer (H := Scenario.healthy) "mysql" tt "A;B;C" []
               Scenario.one_two
               [Scenario.cell "A"; Scenario.cell "B"; Scenario.cell "C"]). }
  split; [exact Hnotin|]. split; [exact Hreach|].
  exact (proj2 (MasterCanRead_true_appends_once (H := Scenario.healthy)
                  Scenario.one_two Hnotin) Hreach).
Defined.

(** C1 fails in the first revision. ["A"] builds a balancer whose only
    read target is the master, and [MasterCanRead(false)] on it panics:
    the list of length one is sliced to length minus one. *)
Theorem Rev1_MasterCanRead_false_panics :
  Rev1.NewBalancer (H := Scenario.healthy) "mysql" tt "A" [] =
    Ok (Scenario.master_only, [Scenario.cell "A"]) ∧
  Rev1.MasterCanRead false Scenario.master_only = Panic "slice bounds out of range".
Proof. split; reflexivity. Qed.

(** The same line drops a replica: with read targets [[1; 0]], the master
    last, [MasterCanRead(false)] of the first revision leaves no read
    target at all, and the next read panics. *)
Lemma Rev1_MasterCanRead_false_drops_replica :
  let b := {| DbMap := Some 0; replicas := [Some 1; Some 0]; count := 0;
              masterCanRead := true |} in
  let b' := {| DbMap := Some 0; replicas := []; count := 0;
               masterCanRead := false |} in
  Rev1.MasterCanRead false b = Done b' ∧
  Rev1.Slave b' = Panic "integer divide by zero".
Proof. split; reflexivity. Qed.

(** ** Fan-out over the handles *)

(** C2, as the specification states it, does not hold: on the balancer
    that ["A"] builds, whose master is its only read target,
    [SetMaxIdleConns] calls the master twice. *)
Lemma master_counted_twice :
  ¬ (∀ (b : Balancer) (a : loc) (n : Z),
       DbMap b = Some a -> calls_on a (calls (SetMaxIdleConns b n)) = 1).
Proof.
  intros Hclaim. specialize (Hclaim Scenario.master_only 0 5%Z eq_refl).
  vm_compute in Hclaim. discriminate Hclaim.
Qed.

Section FanOutClaims.
Context `{Collaborators}.

(** C2, amended. With no nil handle, each tuner and [Ping] of the second
    revision call every element of [GetAllDbs] once, in order: the master
    and then every read target, a handle as often as it is listed. The
    master is so called once more than it occurs among the read targets:
    once exactly when it is not one of them. [Ping] of the first revision
    calls a prefix of the same sequence. *)
Theorem fan_out_every_listed_handle (b : Balancer) (a : loc) (addrs : list loc) :
  GetAllDbs b = Some <$> (a :: addrs) ->
  (∀ n, SetMaxIdleConns b n = (each (CSetMaxIdleConns n) (a :: addrs), Done tt)) ∧
  (∀ n, SetMaxOpenConns b n = (each (CSetMaxOpenConns n) (a :: addrs), Done tt)) ∧
  (∀ d, SetConnMaxLifetime b d = (each (CSetConnMaxLifetime d) (a :: addrs), Done tt)) ∧
  calls (Rev2.Ping b) = each CPing (a :: addrs) ∧
  calls (Rev1.Ping b) `prefix_of` each CPing (a :: addrs) ∧
  DbMap b = Some a ∧
  (∀ c, calls_on a (each c (a :: addrs)) = 1 + occurrences (DbMap b) (replicas b)) ∧
  (∀ c, calls_on a (each c (a :: addrs)) = 1 ↔ DbMap b ∉ replicas b).
Proof.
  intros Hall.
  assert (DbMap b = Some a ∧ replicas b = Some <$> addrs) as [Hm Hr].
  { rewrite GetAllDbs_cons, fmap_cons in Hall. by injection Hall as -> ->. }
  assert (Hcount : ∀ c, calls_on a (each c (a :: addrs)) =
                        1 + occurrences (DbMap b) (replicas b)).
  { intros c. rewrite calls_on_each, fmap_cons, Hm, Hr.
    unfold occurrences. rewrite filter_cons_True by done. done. }
  unfold SetMaxIdleConns, SetMaxOpenConns, SetConnMaxLifetime, Rev2.Ping, Rev1.Ping.
  rewrite Hall. split_and!.
  - intros n. apply tune_loop_each.
  - intros n. apply tune_loop_each.
  - intros d. apply tune_loop_each.
  - apply Rev2_Ping_loop_all.
  - apply Rev1_Ping_loop_prefix.
  - done.
  - done.
  - intros c. rewrite Hcount. split.
    + intros Hone Hin. apply occurrences_present in Hin. lia.
    + intros Hnotin. by rewrite occurrences_absent.
Qed.

(** The second revision and C3: with no nil handle, [Ping] calls every
    element of [GetAllDbs], returns no error exactly when no handle fails,
    and otherwise returns the error of the last handle that failed. *)
Lemma Rev2_Ping_tries_all (b : Balancer) (addrs : list loc) :
  GetAllDbs b = Some <$> addrs ->
  calls (Rev2.Ping b) = each CPing addrs ∧
  ∃ r, outcome_of (Rev2.Ping b) = Done r ∧
       (r = None ↔ Forall (fun a => Db_Ping a = None) addrs) ∧
       ∀ e, r = Some e ->
         ∃ l1 a l2, addrs = l1 ++ a :: l2 ∧ Db_Ping a = Some e ∧
                    Forall (fun a' => Db_Ping a' = None) l2.
Proof.
  intros Hall. unfold Rev2.Ping. rewrite Hall.
  destruct (Rev2_Ping_loop_all addrs None) as (Hcalls & r & Hr & Hnone & Hsome).
  split; [done|]. exists r. split_and!; [done| |].
  - rewrite Hnone. split; [by intros [_ ?]|done].
  - intros e He. by destruct (Hsome e He) as [?|[? _]].
Qed.

(** The same for [Close]. *)
Lemma Rev2_Close_tries_all (b : Balancer) (addrs : list loc) :
  GetAllDbs b = Some <$> addrs ->
  calls (Rev2.Close b) = each CClose addrs ∧
  ∃ r, outcome_of (Rev2.Close b) = Done r ∧
       (r = None ↔ Forall (fun a => Db_Close a = None) addrs) ∧
       ∀ e, r = Some e ->
         ∃ l1 a l2, addrs = l1 ++ a :: l2 ∧ Db_Close a = Some e ∧
                    Forall (fun a' => Db_Close a' = None) l2.
Proof.
  intros Hall. unfold Rev2.Close. rewrite Hall.
  destruct (Rev2_Close_loop_all addrs None) as (Hcalls & r & Hr & Hnone & Hsome).
  split; [done|]. exists r. split_and!; [done| |].
  - rewrite Hnone. split; [by intros [_ ?]|done].
  - intros e He. by destruct (Hsome e He) as [?|[? _]].
Qed.

End FanOutClaims.

Lemma fan_out_every_listed_handle_witness :
  GetAllDbs Scenario.one_two = Some <$> [0; 1; 2] ∧
  SetMaxIdleConns Scenario.one_two 5 =
    ([(0, CSetMaxIdleConns 5); (1, CSetMaxIdleConns 5); (2, CSetMaxIdleConns 5)],
     Done tt) ∧
  calls_on 0 (each CPing [0; 1; 2]) = 1.
Proof.
  assert (Hall : GetAllDbs Scenario.one_two = Some <$> [0; 1; 2]) by reflexivity.
  pose proof (fan_out_every_listed_handle (H := Scenario.healthy)
                Scenario.one_two 0 [1; 2] Hall) as (Hidle & _ & _ & _ & _ & _ & Hcount & _).
  split; [exact Hall|]. split; [exact (Hidle 5%Z)|exact (Hcount CPing)].
Defined.

(** C3 fails in the first revision. With a master that does not answer,
    [Ping] calls the master alone and never the two replicas; with a first
    replica that fails to close, [Close] never closes the second. *)
Theorem Rev1_Ping_Close_stop_at_first_error :
  Rev1.Ping (H := Scenario.faulty) Scenario.one_two =
    ([(0, CPing)], Done (Some "connection refused")) ∧
  Rev1.Close (H := Scenario.faulty) Scenario.one_two =
    ([(0, CClose); (1, CClose)], Done (Some "close failed")).
Proof. split; reflexivity. Qed.

(** On the same input the second revision calls all three handles. *)
Lemma Rev2_Ping_Close_on_faulty :
  Rev2.Ping (H := Scenario.faulty) Scenario.one_two =
    ([(0, CPing); (1, CPing); (2, CPing)], Done (Some "connection refused")) ∧
  Rev2.Close (H := Scenario.faulty) Scenario.one_two =
    ([(0, CClose); (1, CClose); (2, CClose)], Done (Some "close failed")).
Proof. split; reflexivity. Qed.

(** ** Construction from the list of data source names *)

Section ConstructionClaims.
Context `{Collaborators}.

(** C4 fails in the code. [strings.Split] returns one (empty) piece for
    the empty string, so the guard on an empty list never fires: the
    second revision skips the piece, opens nothing, and returns without
    error a balancer whose master is nil and whose only read target is
    that nil master. *)
Theorem NewBalancer_empty_sources_no_error driverName dialect (h : heap) :
  (∀ sources, length (Split sources ";") ≠ 0) ∧
  Rev2.NewBalancer driverName dialect "" h =
    Ok ({| DbMap := nil; replicas := [nil]; count := 0; masterCanRead := true |}, h).
Proof.
  split; [|reflexivity].
  intros sources. pose proof (Split_nonempty sources ";"). lia.
Qed.

(** The cells allocated by the loop of the second revision are, in order,
    what [sql.Open] returned for the pieces that are not empty: an empty
    piece is never opened and never becomes a handle. *)
Lemma Rev2_loop_opens_nonempty driverName dialect (conns : list string) :
  ∀ i b h b' h',
    Rev2.NewBalancer_loop driverName dialect i conns b h = Ok (b', h') ->
    ∃ cells,
      h' = h ++ cells ∧
      Forall2 (fun c cell => sql_Open driverName c = Ok (Db cell) ∧
                             Dialect cell = dialect)
              (filter (fun c => c ≠ EmptyString) conns) cells.
Proof.
  induction conns as [|c conns IH]; intros i b h b' h' Hloop; simpl in Hloop.
  - injection Hloop as <- <-. exists []. by rewrite app_nil_r.
  - case_decide as Hc.
    + destruct (IH _ _ _ _ _ Hloop) as (cells & -> & Hcells).
      exists cells. split; [done|].
      rewrite filter_cons_False; [done|]. intros Hne. apply Hne.
      by destruct c.
    + destruct (sql_Open driverName c) as [s|err] eqn:Hopen; [|done].
      destruct (IH _ _ _ _ _ Hloop) as (cells & -> & Hcells).
      exists (mkDbMap s dialect :: cells). split; [by rewrite <- app_assoc|].
      rewrite filter_cons_True by (intros ->; by apply Hc).
      by constructor.
Qed.

(** The second revision and C6: whatever [sql.Open] returns for ["A"] and
    ["B"], the sources ["A;;B"] build the handle of ["A"] as master and
    the handle of ["B"] as the one read target, and nothing else. *)
Lemma Rev2_NewBalancer_skips_empty_segment driverName dialect (h : heap) dbA dbB :
  sql_Open driverName "A" = Ok dbA ->
  sql_Open driverName "B" = Ok dbB ->
  Rev2.NewBalancer driverName dialect "A;;B" h =
    Ok ({| DbMap := Some (length h); replicas := [Some (S (length h))];
           count := 0; masterCanRead := false |},
        h ++ [mkDbMap dbA dialect; mkDbMap dbB dialect]).
Proof.
  intros HA HB. unfold Rev2.NewBalancer. simpl. rewrite HA. simpl. rewrite HB. simpl.
  rewrite length_app, <- app_assoc. simpl. rewrite Nat.add_1_r. done.
Qed.

End ConstructionClaims.

(** C6 fails in the first revision. From ["A;;B"] it opens the empty piece
    too: the balancer has two read targets, the first of them the handle
    opened with the empty data source name. *)
Theorem Rev1_NewBalancer_opens_empty_segment :
  Rev1.NewBalancer (H := Scenario.healthy) "mysql" tt "A;;B" [] =
    Ok ({| DbMap := Some 0; replicas := [Some 1; Some 2]; count := 0;
           masterCanRead := false |},
        [Scenario.cell "A"; Scenario.cell ""; Scenario.cell "B"]).
Proof. reflexivity. Qed.

(** Where [sql.Open] rejects the empty data source name, the first revision
    fails on ["A;;B"] with that error. *)
Lemma Rev1_NewBalancer_empty_segment_error `{Collaborators}
    driverName dialect (h : heap) dbA e :
  sql_Open driverName "A" = Ok dbA ->
  sql_Open driverName "" = Err e ->
  Rev1.NewBalancer driverName dialect "A;;B" h = Err e.
Proof.
  intros HA HE. unfold Rev1.NewBalancer. simpl. rewrite HA. simpl. by rewrite HE.
Qed.

(** On the same input the second revision builds the one read target. *)
Lemma Rev2_NewBalancer_A__B :
  Rev2.NewBalancer (H := Scenario.healthy) "mysql" tt "A;;B" [] =
    Ok ({| DbMap := Some 0; replicas := [Some 1]; count := 0;
           masterCanRead := false |},
        [Scenario.cell "A"; Scenario.cell "B"]).
Proof. reflexivity. Qed.

(** The first revision on the empty string: the empty data source name is
    opened and becomes the master. *)
Lemma Rev1_NewBalancer_empty_sources :
  Rev1.NewBalancer (H := Scenario.healthy) "mysql" tt "" [] =
    Ok (Scenario.master_only, [Scenario.cell ""]).
Proof. reflexivity. Qed.

(** ** Statement preparation *)

Section PrepareClaims.
Context `{Collaborators}.

(** C10. [Prepare] goes through [GetAllDbs] in order. At the first handle
    whose preparation fails it returns that error and no statement: the
    log holds the preparations up to and including the failing one,
    nothing on the handles after it and no other call, so the statements
    prepared before are neither returned nor closed. It returns a
    statement exactly when every handle prepares, and then the statement
    holds what each handle prepared, in order. *)
Theorem Prepare_all_or_first_error (b : Balancer) (query : string) :
  (∀ l1 ss a e rest,
     GetAllDbs b = (Some <$> l1) ++ Some a :: rest ->
     Forall2 (prepared query) l1 ss ->
     DbMap_Prepare a query = Err e ->
     Prepare b query = (each (CPrepare query) (l1 ++ [a]), Done (Err e))) ∧
  ((∃ st, outcome_of (Prepare b query) = Done (Ok st)) ↔
   Forall (fun p => ∃ a s, p = Some a ∧ prepared query a s) (GetAllDbs b)) ∧
  (∀ addrs ss,
     GetAllDbs b = Some <$> addrs ->
     Forall2 (prepared query) addrs ss ->
     Prepare b query =
       (each (CPrepare query) addrs, Done (Ok {| bl := b; stmts := Some <$> ss |}))).
Proof.
  assert (Hok : ∀ addrs ss,
     GetAllDbs b = Some <$> addrs ->
     Forall2 (prepared query) addrs ss ->
     Prepare b query =
       (each (CPrepare query) addrs, Done (Ok {| bl := b; stmts := Some <$> ss |}))).
  { intros addrs ss Hall Hprep. unfold Prepare. rewrite Hall.
    rewrite length_replicate, length_fmap.
    pose proof (Prepare_loop_ok query addrs ss Hprep []
                  (replicate (length addrs) None)) as Hloop.
    simpl in Hloop. rewrite Hloop by (by rewrite length_replicate).
    unfold mbind, M_bind, mret, M_ret. simpl. by rewrite app_nil_r. }
  split_and!.
  - intros l1 ss a e rest Hall Hprep Ha. unfold Prepare. rewrite Hall.
    rewrite length_replicate, length_app, length_fmap. simpl.
    pose proof (Prepare_loop_err query l1 ss a e rest Hprep Ha []) as Hloop.
    simpl in Hloop. rewrite Hloop.
    unfold mbind, M_bind, mret, M_ret. simpl. by rewrite app_nil_r.
  - split.
    + intros [st Hst]. apply Forall_lookup. intros j p Hj.
      unfold Prepare in Hst.
      destruct (Prepare_loop query (GetAllDbs b) _ 0 _) as [log [[sts|e]|msg]] eqn:Hloop;
        unfold outcome_of, mbind, M_bind, mret, M_ret in Hst; simpl in Hst; try done.
      destruct (Prepare_loop_Ok_inv query (GetAllDbs b) _ 0 _ sts
                  (f_equal snd Hloop) j) as (a & s & Hl & Hs).
      { rewrite length_replicate. apply lookup_lt_Some in Hj. unfold ptr in *. lia. }
      pose proof (eq_trans (eq_sym Hj) Hl) as [= ->]. by exists a, s.
    + intros Hall.
      assert (∃ addrs ss, GetAllDbs b = Some <$> addrs ∧
                          Forall2 (prepared query) addrs ss)
        as (addrs & ss & Haddrs & Hprep).
      { revert Hall. generalize (GetAllDbs b). intros l Hall.
        induction Hall as [|p l (a & s & -> & Hs) _ (addrs & ss & -> & Hprep)].
        - by exists [], [].
        - exists (a :: addrs), (s :: ss). split; [done|by constructor]. }
      eexists. rewrite (Hok addrs ss Haddrs Hprep). done.
  - exact Hok.
Qed.

End PrepareClaims.

Lemma Prepare_all_or_first_error_witness :
  GetAllDbs Scenario.one_two = (Some <$> [0]) ++ Some 1 :: [Some 2] ∧
  Forall2 (prepared (H := Scenario.faulty) "SELECT 1") [0] [(0, "SELECT 1")] ∧
  DbMap_Prepare (Collaborators := Scenario.faulty) 1 "SELECT 1" = Err "syntax error" ∧
  Prepare (H := Scenario.faulty) Scenario.one_two "SELECT 1" =
    ([(0, CPrepare "SELECT 1"); (1, CPrepare "SELECT 1")], Done (Err "syntax error")).
Proof.
  assert (Hall : GetAllDbs Scenario.one_two = (Some <$> [0]) ++ Some 1 :: [Some 2])
    by reflexivity.
  assert (Hprep : Forall2 (prepared (H := Scenario.faulty) "SELECT 1") [0]
                    [(0, "SELECT 1")])
    by (constructor; [reflexivity|constructor]).
  assert (Ha : DbMap_Prepare (Collaborators := Scenario.faulty) 1 "SELECT 1" =
               Err "syntax error") by reflexivity.
  split; [exact Hall|]. split; [exact Hprep|]. split; [exact Ha|].
  exact (proj1 (Prepare_all_or_first_error (H := Scenario.faulty)
                  Scenario.one_two "SELECT 1")
           [0] [(0, "SELECT 1")] 1 "syntax error" [Some 2] Hall Hprep Ha).
Defined.

(** * Further properties of the code *)

(** ** What every topology satisfies *)

(** After its first round the loop of [NewBalancer] leaves the master as it
    is. *)
Lemma Rev1_loop_keeps_master `{Collaborators} driverName dialect (conns : list string) :
  ∀ i b h b' h',
    0 < i ->
    Rev1.NewBalancer_loop driverName dialect i conns b h = Ok (b', h') ->
    DbMap b' = DbMap b.
Proof.
  induction conns as [|c conns IH]; intros i b h b' h' Hi Hloop; simpl in Hloop.
  - by injection Hloop as <- <-.
  - destruct (sql_Open driverName c) as [s|err]; [|done].
    rewrite decide_False in Hloop by lia.
    by rewrite (IH _ _ _ _ _ (Nat.lt_0_succ i) Hloop).
Qed.

Lemma Rev2_loop_keeps_master `{Collaborators} driverName dialect (conns : list string) :
  ∀ i b h b' h',
    0 < i ->
    Rev2.NewBalancer_loop driverName dialect i conns b h = Ok (b', h') ->
    DbMap b' = DbMap b.
Proof.
  induction conns as [|c conns IH]; intros i b h b' h' Hi Hloop; simpl in Hloop.
  - by injection Hloop as <- <-.
  - case_decide; [by eapply (IH (S i)); [lia|]|].
    destruct (sql_Open driverName c) as [s|err]; [|done].
    rewrite decide_False in Hloop by lia.
    by rewrite (IH _ _ _ _ _ (Nat.lt_0_succ i) Hloop).
Qed.

(** The first revision opens the first piece, whatever it is, as the
    master. *)
Lemma Rev1_NewBalancer_master `{Collaborators} driverName dialect sources h b h' :
  Rev1.NewBalancer driverName dialect sources h = Ok (b, h') ->
  DbMap b = Some (length h).
Proof.
  unfold Rev1.NewBalancer. case_decide; [done|].
  pose proof (Split_nonempty sources ";") as Hne.
  destruct (Split sources ";") as [|c conns]; [simpl in Hne; lia|].
  destruct (Rev1.NewBalancer_loop _ _ _ _ _ _) as [[b0 h0]|err] eqn:Hloop; [|done].
  intros [= <- <-]. simpl in Hloop.
  destruct (sql_Open driverName c) as [s|err]; [|done].
  apply Rev1_loop_keeps_master in Hloop; [|lia].
  simpl in Hloop. by case_decide.
Qed.

Lemma counter_in_range_zero (b : Balancer) : count b = 0%Z -> counter_in_range b.
Proof. unfold counter_in_range, uint64_modulus. intros ->. lia. Qed.

(** What a finished construction leaves, in the terms of the invariants. *)
Lemma finish_construction_invariant (n : nat) (b : Balancer) :
  under_construction n b ->
  let b' := if decide (length (replicas b) = 0)
            then set_masterCanRead (set_replicas b (replicas b ++ [DbMap b])) true
            else b in
  Rev2_invariant b' ∧ (DbMap b ≠ nil -> Rev1_invariant b').
Proof.
  intros (Hc & Hf & Hall & Hnd & Hm). simpl. case_decide as Hlen.
  - apply nil_length_inv in Hlen. rewrite Hlen. simpl. split.
    + split_and!; simpl.
      * done.
      * split; [intros _; by left|done].
      * apply NoDup_singleton.
      * by apply counter_in_range_zero.
      * by intros ->%list_elem_of_singleton.
    + intros Hmaster. split_and!; simpl.
      * split; [intros _; by left|done].
      * done.
      * apply NoDup_singleton.
      * by apply counter_in_range_zero.
      * unfold GetAllDbs. simpl. intros Hin.
        repeat (apply elem_of_cons in Hin as [?|Hin]; [congruence|]).
        by apply elem_of_nil in Hin.
  - assert (Hsome : ∀ p, p ∈ replicas b -> ∃ a, p = Some a ∧ a < n)
      by (by apply Forall_forall).
    assert (Hnotin : DbMap b ∉ replicas b).
    { destruct (DbMap b) as [a|]; [by destruct Hm|].
      intros Hin. by destruct (Hsome _ Hin) as (a & ? & ?). }
    assert (Hnonil : nil ∉ replicas b).
    { intros Hin. by destruct (Hsome _ Hin) as (a & ? & ?). }
    split.
    + split_and!.
      * by intros Hnil; rewrite Hnil in Hlen.
      * rewrite Hf. split; [done|]. intros Hin. by destruct Hnotin.
      * done.
      * by apply counter_in_range_zero.
      * intros Hin. by destruct Hnonil.
    + intros Hmaster. split_and!.
      * rewrite Hf. split; [done|]. intros Hin. by destruct Hnotin.
      * by rewrite Hf.
      * done.
      * by apply counter_in_range_zero.
      * rewrite GetAllDbs_cons. by intros [?|?]%elem_of_cons.
Qed.

Lemma Rev2_NewBalancer_invariant `{Collaborators} driverName dialect sources h b h' :
  Rev2.NewBalancer driverName dialect sources h = Ok (b, h') -> Rev2_invariant b.
Proof.
  unfold Rev2.NewBalancer. case_decide; [done|].
  destruct (Rev2.NewBalancer_loop _ _ _ _ _ _) as [[b0 h0]|err] eqn:Hloop; [|done].
  intros [= <- <-]. eapply finish_construction_invariant.
  eapply Rev2_loop_under_construction; [|exact Hloop]. apply under_construction_zero.
Qed.

Lemma Rev1_NewBalancer_invariant `{Collaborators} driverName dialect sources h b h' :
  Rev1.NewBalancer driverName dialect sources h = Ok (b, h') -> Rev1_invariant b.
Proof.
  intros Hnew. pose proof (Rev1_NewBalancer_master _ _ _ _ _ _ Hnew) as Hmaster.
  revert Hnew Hmaster. unfold Rev1.NewBalancer. case_decide; [done|].
  destruct (Rev1.NewBalancer_loop _ _ _ _ _ _) as [[b0 h0]|err] eqn:Hloop; [|done].
  intros [= <- <-] Hmaster.
  eapply finish_construction_invariant.
  - eapply Rev1_loop_under_construction; [|exact Hloop]. apply under_construction_zero.
  - revert Hmaster. case_decide; simpl; by intros ->.
Qed.

(** A read leaves the topology as it is and the counter in its range. *)
Lemma Replica_keeps (b : Balancer) (db : ptr) (b' : Balancer) :
  Replica b = Done (db, b') ->
  DbMap b' = DbMap b ∧ replicas b' = replicas b ∧
  masterCanRead b' = masterCanRead b ∧
  (counter_in_range b -> counter_in_range b').
Proof.
  unfold Replica. destruct (replica b) as [[i b0]|msg] eqn:Hr; simpl; [|done].
  assert (DbMap b0 = DbMap b ∧ replicas b0 = replicas b ∧
          masterCanRead b0 = masterCanRead b ∧
          (counter_in_range b -> counter_in_range b0)) as Hkeeps.
  { unfold replica in Hr. repeat case_decide; try done; injection Hr as <- <-; [done|].
    split_and!; try done. intros _. apply AddUint64_1_range. }
  case_decide; [|done]. destruct (_ !! _); [|done]. by intros [= _ <-].
Qed.

Lemma Rev2_MasterCanRead_invariant (read : bool) (b b' : Balancer) :
  Rev2_invariant b -> Rev2.MasterCanRead read b = Done b' -> Rev2_invariant b'.
Proof.
  intros (Hne & Hflag & Hnd & Hcount & Hnil). unfold Rev2.MasterCanRead.
  destruct read, (masterCanRead b) eqn:Hf; simpl; rewrite ?Hf; simpl.
  - intros [= <-]. split_and!; try done. by rewrite Hf.
  - intros [= <-]. split_and!; simpl; try done.
    + by destruct (replicas b).
    + split; [intros _|done]. rewrite elem_of_app, list_elem_of_singleton. by right.
    + apply NoDup_app. split_and!; [done| |apply NoDup_singleton].
      intros p Hp ->%list_elem_of_singleton. apply Hflag in Hp. done.
    + rewrite elem_of_app, list_elem_of_singleton. intros [?|?]; [by apply Hnil|done].
  - case_bool_decide as Hlen; intros [= <-]; [|split_and!; try done; by rewrite Hf].
    unfold Rev2.without_master. split_and!; simpl; try done.
    + destruct (replicas b) as [|x [|y l]] eqn:Hl; simpl in Hlen; [lia..|].
      apply NoDup_cons in Hnd as [Hx _].
      destruct (decide (x = DbMap b)) as [->|Hxm].
      * rewrite filter_cons_False by (intros ?; done).
        rewrite filter_cons_True; [done|]. intros ->. apply Hx. by left.
      * by rewrite filter_cons_True.
    + split; [done|]. by intros [? _]%list_elem_of_filter.
    + by apply NoDup_filter.
    + intros [_ ?]%list_elem_of_filter. by apply Hnil.
  - intros [= <-]. split_and!; try done. by rewrite Hf.
Qed.

Lemma Rev1_MasterCanRead_invariant (read : bool) (b b' : Balancer) :
  Rev1_invariant b -> Rev1.MasterCanRead read b = Done b' -> Rev1_invariant b'.
Proof.
  intros (Hflag & Hlast & Hnd & Hcount & Hnil).
  rewrite GetAllDbs_cons, not_elem_of_cons in Hnil. destruct Hnil as [Hm Hl].
  unfold Rev1.MasterCanRead, Rev1.slice_to, Rev1.slaves.
  destruct read, (masterCanRead b) eqn:Hf; simpl; rewrite ?Hf; simpl.
  - intros [= <-]. split_and!; simpl; try done.
    rewrite GetAllDbs_cons, not_elem_of_cons. done.
  - intros [= <-].
    assert (DbMap b ∉ replicas b) as Hnotin by (intros Hin; by apply Hflag in Hin).
    split_and!; simpl; try done.
    + split; [intros _|done]. rewrite elem_of_app, list_elem_of_singleton. by right.
    + intros _. apply last_snoc.
    + apply NoDup_app. split_and!; [done| |apply NoDup_singleton].
      by intros p Hp ->%list_elem_of_singleton.
    + rewrite GetAllDbs_cons. simpl.
      rewrite not_elem_of_cons, not_elem_of_app, list_elem_of_singleton. done.
  - case_decide as Hlen; [|done]. simpl. rewrite Hf. simpl. intros [= <-].
    destruct (proj1 (last_Some _ _) (Hlast eq_refl)) as [l' Hl'].
    assert (DbMap b ∉ l') as Hnotin.
    { rewrite Hl' in Hnd. apply NoDup_app in Hnd as (_ & Hdisj & _).
      intros Hin. apply (Hdisj _ Hin). by left. }
    assert (Htake : ∀ p, p ∈ take (Z.to_nat (Z.of_nat (length (replicas b)) - 2))
                              (replicas b) -> p ∈ l').
    { intros p (i & Hi & Hlt)%elem_of_take.
      rewrite Hl', length_app in Hlt. simpl in Hlt.
      rewrite Hl', lookup_app_l in Hi by lia. by eapply list_elem_of_lookup_2. }
    split_and!; simpl; try done.
    + split; [done|]. intros Hin. by apply Htake in Hin.
    + eapply sublist_NoDup; [exact Hnd|apply sublist_take].
    + rewrite GetAllDbs_cons. simpl. rewrite not_elem_of_cons. split; [done|].
      intros Hin. apply Htake in Hin. apply Hl. rewrite Hl', elem_of_app. by left.
  - intros [= <-]. split_and!; simpl; try done.
    rewrite GetAllDbs_cons, not_elem_of_cons. done.
Qed.

Lemma Replica_Rev1_invariant (b : Balancer) (db : ptr) (b' : Balancer) :
  Rev1_invariant b -> Replica b = Done (db, b') -> Rev1_invariant b'.
Proof.
  intros (Hflag & Hlast & Hnd & Hcount & Hnil) (Hm & Hr & Hf & Hc)%Replica_keeps.
  unfold Rev1_invariant. rewrite GetAllDbs_cons in *. rewrite Hm, Hr, Hf.
  split_and!; try done. by apply Hc.
Qed.

Lemma Replica_Rev2_invariant (b : Balancer) (db : ptr) (b' : Balancer) :
  Rev2_invariant b -> Replica b = Done (db, b') -> Rev2_invariant b'.
Proof.
  intros (Hne & Hflag & Hnd & Hcount & Hnil) (Hm & Hr & Hf & Hc)%Replica_keeps.
  unfold Rev2_invariant. rewrite Hm, Hr, Hf.
  split_and!; try done. by apply Hc.
Qed.

Lemma Rev1_reachable_invariant `{Collaborators} (b : Balancer) :
  Rev1.reachable b -> Rev1_invariant b.
Proof.
  induction 1 as [driverName dialect sources h b h' Hnew
                 |read b b' _ IH Hstep|b db b' _ IH Hstep].
  - by eapply Rev1_NewBalancer_invariant.
  - by eapply Rev1_MasterCanRead_invariant.
  - by eapply Replica_Rev1_invariant.
Qed.

Lemma Rev2_reachable_invariant `{Collaborators} (b : Balancer) :
  Rev2.reachable b -> Rev2_invariant b.
Proof.
  induction 1 as [driverName dialect sources h b h' Hnew
                 |read b b' _ IH Hstep|b db b' _ IH Hstep].
  - by eapply Rev2_NewBalancer_invariant.
  - by eapply Rev2_MasterCanRead_invariant.
  - by eapply Replica_Rev2_invariant.
Qed.

(** ** The first read after construction, and the rounds after it *)

(** A reconfiguration leaves the counter alone. *)
Lemma Rev1_MasterCanRead_count (read : bool) (b b' : Balancer) :
  Rev1.MasterCanRead read b = Done b' -> count b' = count b.
Proof.
  unfold Rev1.MasterCanRead, Rev1.slice_to, Rev1.slaves.
  destruct read, (masterCanRead b) eqn:Hf; simpl; rewrite ?Hf; simpl;
    try (by intros [= <-]).
  case_decide; [|done]. simpl. rewrite Hf. simpl. by intros [= <-].
Qed.

Lemma Rev2_MasterCanRead_count (read : bool) (b b' : Balancer) :
  Rev2.MasterCanRead read b = Done b' -> count b' = count b.
Proof.
  unfold Rev2.MasterCanRead.
  destruct read, (masterCanRead b) eqn:Hf; simpl; rewrite ?Hf; simpl;
    try (by intros [= <-]).
  case_bool_decide; by intros [= <-].
Qed.

(** A topology that has not been read from has its counter at zero and
    lists no read target twice. *)
Lemma Rev1_unread_invariant `{Collaborators} (b : Balancer) :
  Rev1_unread b -> count b = 0%Z ∧ NoDup (replicas b) ∧ Rev1.reachable b.
Proof.
  induction 1 as [driverName dialect sources h b h' Hnew
                 |read b b' _ (Hc & _ & Hreach) Hstep].
  - assert (Rev1.reachable b) as Hreach by (by eapply Rev1.reach_NewBalancer).
    pose proof (Rev1_reachable_invariant b Hreach) as (_ & _ & Hnd & _).
    by apply Rev1_NewBalancer_post in Hnew as (? & _).
  - assert (Rev1.reachable b') as Hreach' by (by eapply Rev1.reach_MasterCanRead).
    pose proof (Rev1_reachable_invariant b' Hreach') as (_ & _ & Hnd & _).
    apply Rev1_MasterCanRead_count in Hstep. split_and!; [congruence|done..].
Qed.

Lemma Rev2_unread_invariant `{Collaborators} (b : Balancer) :
  Rev2_unread b -> count b = 0%Z ∧ NoDup (replicas b) ∧ Rev2.reachable b.
Proof.
  induction 1 as [driverName dialect sources h b h' Hnew
                 |read b b' _ (Hc & _ & Hreach) Hstep].
  - assert (Rev2.reachable b) as Hreach by (by eapply Rev2.reach_NewBalancer).
    pose proof (Rev2_reachable_invariant b Hreach) as (_ & _ & Hnd & _).
    by apply Rev2_NewBalancer_post in Hnew as (? & _).
  - assert (Rev2.reachable b') as Hreach' by (by eapply Rev2.reach_MasterCanRead).
    pose proof (Rev2_reachable_invariant b' Hreach') as (_ & _ & Hnd & _).
    apply Rev2_MasterCanRead_count in Hstep. split_and!; [congruence|done..].
Qed.

(** With more than one read target a read goes to the index that the
    incremented counter gives, whatever the counter. *)
Lemma Replica_step_wrap (b : Balancer) :
  1 < length (replicas b) ->
  ∃ db, replicas b !! Z.to_nat (AddUint64_1 (count b) mod Z.of_nat (length (replicas b)))
          = Some db ∧
        Replica b = Done (db, set_count b (AddUint64_1 (count b))).
Proof.
  intros Hk. unfold Replica, replica.
  case_decide; [lia|]. case_decide; [lia|]. simpl.
  pose proof (Z.mod_pos_bound (AddUint64_1 (count b)) (Z.of_nat (length (replicas b)))) as Hb.
  case_decide; [|lia].
  destruct (replicas b !! _) as [db|] eqn:Hl.
  - by exists db.
  - apply lookup_ge_None in Hl. lia.
Qed.

(** [n] reads in a row, wrap-around included: the counter ends at
    [count + n] modulo [2^64], and the read number [j] goes to the index
    [((count + j + 1) mod 2^64) mod k]. *)
Lemma Replica_n_wrap (n : nat) : ∀ b : Balancer,
  1 < length (replicas b) -> counter_in_range b ->
  ∃ dbs, Replica_n n b =
           Done (dbs, set_count b ((count b + Z.of_nat n) mod uint64_modulus)) ∧
         length dbs = n ∧
         ∀ j, j < n ->
           dbs !! j = replicas b !! Z.to_nat (((count b + Z.of_nat j + 1) mod uint64_modulus)
                                     mod Z.of_nat (length (replicas b))).
Proof.
  induction n as [|n IH]; intros b Hk Hc.
  - exists []. simpl. rewrite Z.add_0_r, Z.mod_small, set_count_same by apply Hc.
    split_and!; [done..|lia].
  - destruct (Replica_step_wrap b Hk) as (db & Hdb & HR).
    destruct (IH (set_count b (AddUint64_1 (count b)))) as (dbs & Hn & Hlen & Hj);
      [done|apply AddUint64_1_range|].
    exists (db :: dbs). simpl. rewrite HR. simpl. rewrite Hn. simpl.
    unfold AddUint64_1 in *. split_and!.
    + do 2 f_equal. unfold set_count. simpl. f_equal.
      rewrite Zplus_mod_idemp_l. f_equal. lia.
    + by rewrite Hlen.
    + intros [|j] Hlt; simpl.
      * rewrite Z.add_0_r. done.
      * rewrite Hj by lia. simpl. do 3 f_equal.
        rewrite <- Z.add_assoc, Zplus_mod_idemp_l. f_equal. lia.
Qed.

(** The index of the read number [i] of a round that starts with the
    counter at [j * k] modulo [2^64]: it is [i + 1] modulo [k] when the
    round ends before the counter wraps around, and always when [k] divides
    [2^64]. *)
Lemma round_index (j k i : nat) :
  1 < k -> i < k ->
  (Z.of_nat ((j + 1) * k) < uint64_modulus)%Z ∨ (Z.of_nat k | uint64_modulus)%Z ->
  (((Z.of_nat (j * k) mod uint64_modulus + Z.of_nat i + 1) mod uint64_modulus)
     mod Z.of_nat k = (Z.of_nat 1 + Z.of_nat i) mod Z.of_nat k)%Z.
Proof.
  intros Hk Hi Hcond.
  assert (0 < uint64_modulus)%Z as HM by reflexivity.
  rewrite Nat2Z.inj_mul in *. rewrite Nat2Z.inj_add in Hcond.
  change (Z.of_nat 1) with 1%Z in *.
  replace (1 + Z.of_nat i)%Z with (Z.of_nat i + 1)%Z by lia.
  destruct Hcond as [Hw|Hdiv].
  - rewrite (Z.mod_small (Z.of_nat j * Z.of_nat k)) by nia.
    rewrite (Z.mod_small _ uint64_modulus) by nia.
    replace (Z.of_nat j * Z.of_nat k + Z.of_nat i + 1)%Z
      with (Z.of_nat i + 1 + Z.of_nat j * Z.of_nat k)%Z by lia.
    apply Z.mod_add. lia.
  - rewrite Z.mod_mod_divide by done.
    rewrite <- Z.add_assoc, <- Zplus_mod_idemp_l.
    rewrite Z.mod_mod_divide by done.
    rewrite Z.mod_mul by lia. done.
Qed.

(** The round number [j] of a balancer whose counter is at zero: the
    [j * k] reads before it leave the counter at [j * k] modulo [2^64], and
    the [k] reads of the round go through the list from its second element
    to its first. *)
Lemma Replica_n_round (b : Balancer) (j : nat) :
  let k := length (replicas b) in
  1 < k -> count b = 0%Z ->
  (Z.of_nat ((j + 1) * k) < uint64_modulus)%Z ∨ (Z.of_nat k | uint64_modulus)%Z ->
  ∃ dbs,
    Replica_n (j * k) b =
      Done (dbs, set_count b (Z.of_nat (j * k) mod uint64_modulus)) ∧
    Replica_n k (set_count b (Z.of_nat (j * k) mod uint64_modulus)) =
      Done (drop 1 (replicas b) ++ take 1 (replicas b),
            set_count b (Z.of_nat ((j + 1) * k) mod uint64_modulus)).
Proof.
  intros k Hk Hc Hcond.
  assert (0 < uint64_modulus)%Z as HM by reflexivity.
  destruct (Replica_n_wrap (j * k) b) as (dbs & Hn & _);
    [done|by apply counter_in_range_zero|].
  rewrite Hc, Z.add_0_l in Hn. exists dbs. split; [done|].
  set (c := (Z.of_nat (j * k) mod uint64_modulus)%Z) in *.
  destruct (Replica_n_wrap k (set_count b c)) as (dbs' & Hn' & Hlen & Hj);
    [done|apply Z.mod_pos_bound; lia|].
  simpl in Hn', Hj. fold k in Hn', Hj. rewrite Hn'. f_equal. f_equal.
  - rewrite <- rotate_one by done. apply list_eq. intros i.
    destruct (decide (i < k)) as [Hlt|Hge].
    + rewrite Hj, lookup_rotate_r by done. f_equal.
      unfold rotate_nat_add. fold k. f_equal. by apply round_index.
    + rewrite !lookup_ge_None_2; [done| |lia].
      rewrite length_rotate. fold k. lia.
  - unfold set_count, c. simpl. f_equal.
    rewrite Zplus_mod_idemp_l. f_equal. lia.
Qed.

Lemma Rev2_unread_one_two_three :
  Rev2_unread (H := Scenario.healthy) MoreScenario.one_two_three.
Proof.
  by apply (Rev2_unread_NewBalancer (H := Scenario.healthy) "mysql" tt "A;B;C;D" []
              MoreScenario.one_two_three
              [Scenario.cell "A"; Scenario.cell "B"; Scenario.cell "C"; Scenario.cell "D"]).
Defined.

Lemma Rev2_unread_one_two_master :
  Rev2_unread (H := Scenario.healthy) MoreScenario.one_two_master.
Proof.
  apply (Rev2_unread_MasterCanRead (H := Scenario.healthy) true Scenario.one_two
           MoreScenario.one_two_master); [|reflexivity].
  by apply (Rev2_unread_NewBalancer (H := Scenario.healthy) "mysql" tt "A;B;C" []
              Scenario.one_two
              [Scenario.cell "A"; Scenario.cell "B"; Scenario.cell "C"]).
Defined.

(** C9, as stated, does not hold: it has every round of [k] reads begin at
    the second element of the list. The balancer that ["A;B;C;D"] builds has
    three read targets; after [2^64 + 2] reads, which is
    [6148914691236517206] rounds of three, its counter has wrapped around
    to [2], and the next round begins with the read that takes the counter
    to [3]: it returns the first element of the list. *)
Lemma round_after_wrap_around_begins_at_first :
  ¬ (∀ b : Balancer,
       Rev2_unread (H := Scenario.healthy) b -> 1 < length (replicas b) ->
       ∀ j : nat, ∃ dbs b_j db b',
         Replica_n (j * length (replicas b)) b = Done (dbs, b_j) ∧
         Replica b_j = Done (db, b') ∧
         replicas b !! 1 = Some db ∧ replicas b !! 0 ≠ Some db).
Proof.
  intros Hclaim.
  assert (1 < length (replicas MoreScenario.one_two_three)) as Hk by (simpl; lia).
  destruct (Hclaim MoreScenario.one_two_three Rev2_unread_one_two_three Hk
              (Z.to_nat 6148914691236517206))
    as (dbs & b_j & db & b' & Hn & HR & H1 & _).
  change (length (replicas MoreScenario.one_two_three)) with 3 in Hn.
  destruct (Replica_n_wrap (Z.to_nat 6148914691236517206 * 3) MoreScenario.one_two_three)
    as (dbs' & Hn' & _); [exact Hk|by apply counter_in_range_zero|].
  rewrite Nat2Z.inj_mul, Z2Nat.id in Hn' by lia.
  change (set_count MoreScenario.one_two_three _)
    with (set_count MoreScenario.one_two_three 2) in Hn'.
  rewrite Hn' in Hn. injection Hn as _ <-.
  vm_compute in HR. vm_compute in H1. congruence.
Qed.

Section FirstRead.
Context `{Collaborators}.

(** C9, amended. On every topology of either revision that has not been
    read from since its construction - what [NewBalancer] returns, whether
    reconfigured by [MasterCanRead] or not - the counter is zero; with
    [k > 1] read targets the first read selection returns the second
    element of the list, which is not the first, and leaves the counter at
    one; and every round of [k] reads that ends before the counter wraps
    around - every round at all when [k] divides [2^64] - begins at the
    second element: the [j * k] reads before it return, and its [k] reads
    go through the list from the second element to the last and then to
    the first. *)
Theorem first_read_is_second_target (b : Balancer) :
  let k := length (replicas b) in
  Rev1_unread b ∨ Rev2_unread b -> 1 < k ->
  count b = 0%Z ∧
  (∃ db, replicas b !! 1 = Some db ∧
         replicas b !! 0 ≠ Some db ∧
         Replica b = Done (db, set_count b 1)) ∧
  ∀ j : nat,
    (Z.of_nat ((j + 1) * k) < uint64_modulus)%Z ∨ (Z.of_nat k | uint64_modulus)%Z ->
    ∃ dbs,
      Replica_n (j * k) b =
        Done (dbs, set_count b (Z.of_nat (j * k) mod uint64_modulus)) ∧
      Replica_n k (set_count b (Z.of_nat (j * k) mod uint64_modulus)) =
        Done (drop 1 (replicas b) ++ take 1 (replicas b),
              set_count b (Z.of_nat ((j + 1) * k) mod uint64_modulus)).
Proof.
  intros k Hun Hk.
  assert (count b = 0%Z ∧ NoDup (replicas b)) as [Hc Hnd].
  { destruct Hun as [Hun|Hun].
    - by apply Rev1_unread_invariant in Hun as (? & ? & _).
    - by apply Rev2_unread_invariant in Hun as (? & ? & _). }
  split_and!; [done| |].
  - destruct (Replica_step b) as (db & Hdb & HR); [done|lia|by rewrite Hc|].
    rewrite Hc in Hdb, HR. simpl in Hdb, HR.
    rewrite Z.mod_small in Hdb by (fold k; lia). change (Z.to_nat 1) with 1 in Hdb.
    exists db. split_and!; [done| |done].
    intros H0. by pose proof (NoDup_lookup _ _ _ _ Hnd H0 Hdb).
  - intros j Hcond. by apply Replica_n_round.
Qed.

End FirstRead.

Lemma first_read_is_second_target_witness :
  (Rev1_unread (H := Scenario.healthy) MoreScenario.one_two_master ∨
   Rev2_unread (H := Scenario.healthy) MoreScenario.one_two_master) ∧
  1 < length (replicas MoreScenario.one_two_master) ∧
  count MoreScenario.one_two_master = 0%Z ∧
  (∃ db, replicas MoreScenario.one_two_master !! 1 = Some db ∧
         replicas MoreScenario.one_two_master !! 0 ≠ Some db ∧
         Replica MoreScenario.one_two_master =
           Done (db, set_count MoreScenario.one_two_master 1)) ∧
  ∀ j : nat,
    (Z.of_nat ((j + 1) * 3) < uint64_modulus)%Z ∨ (Z.of_nat 3 | uint64_modulus)%Z ->
    ∃ dbs,
      Replica_n (j * 3) MoreScenario.one_two_master =
        Done (dbs, set_count MoreScenario.one_two_master
                     (Z.of_nat (j * 3) mod uint64_modulus)) ∧
      Replica_n 3 (set_count MoreScenario.one_two_master
                     (Z.of_nat (j * 3) mod uint64_modulus)) =
        Done ([Some 2; Some 0; Some 1],
              set_count MoreScenario.one_two_master
                (Z.of_nat ((j + 1) * 3) mod uint64_modulus)).
Proof.
  assert (Hun : Rev1_unread (H := Scenario.healthy) MoreScenario.one_two_master ∨
                Rev2_unread (H := Scenario.healthy) MoreScenario.one_two_master)
    by (right; exact Rev2_unread_one_two_master).
  assert (Hk : 1 < length (replicas MoreScenario.one_two_master)) by (simpl; lia).
  split; [exact Hun|]. split; [exact Hk|].
  exact (first_read_is_second_target (H := Scenario.healthy)
           MoreScenario.one_two_master Hun Hk).
Defined.

Section Topologies.
Context `{Collaborators}.

(** X1. Every topology of the second revision has a read target; its flag
    is up exactly when the master is a read target; no read target is listed
    twice; the counter is a [uint64]; and a read target is nil only if the
    master is nil. *)
Theorem Rev2_topology_well_formed (b : Balancer) :
  Rev2.reachable b ->
  replicas b ≠ [] ∧
  (masterCanRead b = true ↔ DbMap b ∈ replicas b) ∧
  NoDup (replicas b) ∧
  (0 <= count b < 2 ^ 64)%Z ∧
  (nil ∈ replicas b -> DbMap b = nil).
Proof. intros Hreach. by apply Rev2_reachable_invariant in Hreach. Qed.

(** X2. Every topology of the first revision has its flag up exactly when
    the master is a read target, and then the master is the last one; no
    read target is listed twice; the counter is a [uint64]; and neither
    the master nor a read target is nil. *)
Theorem Rev1_topology_well_formed (b : Balancer) :
  Rev1.reachable b ->
  (masterCanRead b = true ↔ DbMap b ∈ Rev1.slaves b) ∧
  (masterCanRead b = true -> last (Rev1.slaves b) = Some (DbMap b)) ∧
  NoDup (Rev1.slaves b) ∧
  (0 <= count b < 2 ^ 64)%Z ∧
  DbMap b ≠ nil ∧ nil ∉ Rev1.slaves b.
Proof.
  intros (Hflag & Hlast & Hnd & Hc & Hnil)%Rev1_reachable_invariant.
  rewrite GetAllDbs_cons, not_elem_of_cons in Hnil. destruct Hnil as [Hm Hl].
  split_and!; try done; apply Hc.
Qed.

(** X3. When calls on the balancer do not overlap - no reconfiguration
    runs between the computation of the index and the indexing - a read
    selection on a topology of the second revision returns: it yields one
    of the read targets, which is not the master while the flag is down,
    and leaves a topology. The topologies are those that calls made one
    after the other reach, and [Replica] is one step among them. *)
Theorem Rev2_Replica_never_panics (b : Balancer) :
  Rev2.reachable b ->
  ∃ db b', Replica b = Done (db, b') ∧
           db ∈ replicas b ∧
           (masterCanRead b = false -> db ≠ DbMap b) ∧
           Rev2.reachable b'.
Proof.
  intros Hreach.
  pose proof (Rev2_reachable_invariant b Hreach) as (Hne & Hflag & _).
  destruct (replica_index_bound b Hne) as (i & b' & Hr & Hi & Hsame).
  destruct (replicas b !! Z.to_nat i) as [db|] eqn:Hdb;
    [|apply lookup_ge_None in Hdb; lia].
  assert (Replica b = Done (db, b')) as HR.
  { unfold Replica. rewrite Hr. simpl. rewrite decide_True by lia.
    by rewrite Hsame, Hdb. }
  assert (db ∈ replicas b) as Hin by (by eapply list_elem_of_lookup_2).
  exists db, b'. split_and!; [done|done| |by eapply Rev2.reach_Replica].
  intros Hf ->. apply Hflag in Hin. congruence.
Qed.

(** X7. Enabling reads on the master and disabling them again, on a
    topology of the second revision whose flag is down, gives back the
    topology one started from. *)
Theorem Rev2_enable_then_disable (b : Balancer) :
  Rev2.reachable b -> masterCanRead b = false ->
  ∃ b1, Rev2.MasterCanRead true b = Done b1 ∧
        replicas b1 = replicas b ++ [DbMap b] ∧
        Rev2.MasterCanRead false b1 = Done b.
Proof.
  intros (Hne & Hflag & _)%Rev2_reachable_invariant Hf.
  assert (DbMap b ∉ replicas b) as Hnotin by (intros Hin; apply Hflag in Hin; congruence).
  exists (set_masterCanRead (set_replicas b (replicas b ++ [DbMap b])) true).
  split_and!; try done.
  - unfold Rev2.MasterCanRead. by rewrite Hf.
  - unfold Rev2.MasterCanRead. simpl.
    rewrite bool_decide_eq_true_2
      by (rewrite length_app; simpl; destruct (replicas b); [done|simpl; lia]).
    simpl. unfold Rev2.without_master. simpl.
    rewrite filter_app, filter_cons_False by (intros ?; done). simpl.
    rewrite app_nil_r.
    assert (filter (λ db : ptr, db ≠ DbMap b) (replicas b) = replicas b) as ->.
    { clear Hne Hflag. induction (replicas b) as [|p l IH]; [done|].
      apply not_elem_of_cons in Hnotin as [Hp Hl].
      rewrite filter_cons_True by done. by rewrite IH. }
    destruct b; simpl in *. by rewrite Hf.
Qed.

(** X8. Disabling reads on the master and enabling them again, on a
    topology of the second revision whose flag is up and which has another
    read target, keeps the read targets but moves the master to the end of
    the list. *)
Theorem Rev2_disable_then_enable (b : Balancer) :
  Rev2.reachable b -> masterCanRead b = true -> 1 < length (replicas b) ->
  ∃ b1 b2, Rev2.MasterCanRead false b = Done b1 ∧
           Rev2.MasterCanRead true b1 = Done b2 ∧
           replicas b2 = Rev2.without_master b ++ [DbMap b] ∧
           replicas b2 ≡ₚ replicas b ∧
           masterCanRead b2 = true ∧ DbMap b2 = DbMap b ∧ count b2 = count b.
Proof.
  intros (Hne & Hflag & Hnd & _)%Rev2_reachable_invariant Hf Hlen.
  exists (set_masterCanRead (set_replicas b (Rev2.without_master b)) false),
         (set_masterCanRead (set_replicas b (Rev2.without_master b ++ [DbMap b])) true).
  split_and!; try done.
  - unfold Rev2.MasterCanRead. rewrite Hf. simpl.
    rewrite bool_decide_eq_true_2 by done. by rewrite Hf.
  - simpl. apply NoDup_Permutation; [|done|].
    + apply NoDup_app. split_and!; [by apply NoDup_filter| |apply NoDup_singleton].
      intros p [Hp _]%list_elem_of_filter ->%list_elem_of_singleton. done.
    + intros p. unfold Rev2.without_master.
      rewrite elem_of_app, list_elem_of_filter, list_elem_of_singleton.
      split.
      * intros [[_ ?]| ->]; [done|]. by apply Hflag.
      * intros Hp. destruct (decide (p = DbMap b)); [by right|by left].
Qed.

End Topologies.

(** Why the calls must not overlap. With nothing running in between, the
    overlapped read selection is [Replica]. *)
Lemma Replica_interleaved_nothing (b : Balancer) :
  Replica_interleaved Done b = Replica b.
Proof. unfold Replica_interleaved, Replica. by destruct (replica b) as [[i b1]|msg]. Qed.

(** With a master that is the last of three read targets and a counter at
    one, the index computed is two; a [MasterCanRead(false)] that runs
    before the indexing leaves two read targets in the second revision
    and one in the first, and the indexing panics. *)
Lemma Replica_interleaved_MasterCanRead_panics :
  Rev2.reachable (H := Scenario.healthy) (set_count MoreScenario.one_two_master 1) ∧
  Replica_interleaved (Rev2.MasterCanRead false) (set_count MoreScenario.one_two_master 1)
    = Panic "index out of range" ∧
  Rev1.reachable (H := Scenario.healthy) (set_count MoreScenario.one_two_master 1) ∧
  Replica_interleaved (Rev1.MasterCanRead false) (set_count MoreScenario.one_two_master 1)
    = Panic "index out of range".
Proof.
  split_and!; [|reflexivity| |reflexivity].
  - apply (Rev2.reach_Replica (H := Scenario.healthy) MoreScenario.one_two_master
             (Some 2)); [|reflexivity].
    apply (Rev2.reach_MasterCanRead (H := Scenario.healthy) true Scenario.one_two);
      [|reflexivity].
    by apply (Rev2.reach_NewBalancer (H := Scenario.healthy) "mysql" tt "A;B;C" []
                Scenario.one_two
                [Scenario.cell "A"; Scenario.cell "B"; Scenario.cell "C"]).
  - apply (Rev1.reach_Slave (H := Scenario.healthy) MoreScenario.one_two_master
             (Some 2)); [|reflexivity].
    apply (Rev1.reach_MasterCanRead (H := Scenario.healthy) true Scenario.one_two);
      [|reflexivity].
    by apply (Rev1.reach_NewBalancer (H := Scenario.healthy) "mysql" tt "A;B;C" []
                Scenario.one_two
                [Scenario.cell "A"; Scenario.cell "B"; Scenario.cell "C"]).
Qed.

(** X6. [MasterCanRead] of the second revision is idempotent, whatever the
    balancer: it returns, and the same call on what it returns changes
    nothing. *)
Theorem Rev2_MasterCanRead_idempotent (read : bool) (b : Balancer) :
  ∃ b', Rev2.MasterCanRead read b = Done b' ∧ Rev2.MasterCanRead read b' = Done b'.
Proof.
  assert (∃ b', Rev2.MasterCanRead read b = Done b') as [b' Hm] by by eexists.
  exists b'. split; [done|]. unfold Rev2.MasterCanRead in *.
  destruct read, (masterCanRead b) eqn:Hf; simpl in Hm; rewrite ?Hf in Hm;
    simpl in Hm; try case_bool_decide; injection Hm as <-; simpl;
    rewrite ?Hf; simpl; try done.
  by rewrite bool_decide_eq_false_2.
Qed.

(** X4. With a single read target every read selection returns it and
    leaves the balancer, its counter included, untouched. *)
Theorem single_target_reads_leave_counter (b : Balancer) (db : ptr) (n : nat) :
  replicas b = [db] -> Replica_n n b = Done (replicate n db, b).
Proof.
  intros Hl.
  assert (Replica b = Done (db, b)) as HR.
  { unfold Replica, replica. rewrite Hl. simpl. by rewrite Hl. }
  induction n as [|n IH]; [done|]. simpl. rewrite HR. simpl. by rewrite IH.
Qed.

Lemma single_target_reads_leave_counter_witness :
  replicas Scenario.master_only = [Some 0] ∧
  Replica_n 3 Scenario.master_only = Done ([Some 0; Some 0; Some 0], Scenario.master_only).
Proof.
  assert (Hl : replicas Scenario.master_only = [Some 0]) by reflexivity.
  split; [exact Hl|]. exact (single_target_reads_leave_counter _ _ 3 Hl).
Defined.

(** X5. When the counter is at its largest value the next read selection
    wraps it to zero and, with more than one read target, returns the first
    one. *)
Theorem Replica_wraps_to_first_target (b : Balancer) :
  count b = (2 ^ 64 - 1)%Z -> 1 < length (replicas b) ->
  ∃ db, replicas b !! 0 = Some db ∧ Replica b = Done (db, set_count b 0).
Proof.
  intros Hc Hk. destruct (replicas b) as [|db l] eqn:Hl; [simpl in Hk; lia|].
  exists db. split; [done|].
  unfold Replica, replica. rewrite Hl. rewrite decide_False by (simpl in *; lia).
  rewrite decide_False by (simpl; lia).
  unfold AddUint64_1, uint64_modulus. rewrite Hc.
  replace (2 ^ 64 - 1 + 1)%Z with (2 ^ 64)%Z by lia.
  rewrite Z.mod_same by lia. simpl. by rewrite Hl.
Qed.

Lemma Replica_wraps_to_first_target_witness :
  let b := set_count Scenario.one_two (2 ^ 64 - 1) in
  count b = (2 ^ 64 - 1)%Z ∧ 1 < length (replicas b) ∧
  ∃ db, replicas b !! 0 = Some db ∧ Replica b = Done (db, set_count b 0).
Proof.
  assert (Hc : count (set_count Scenario.one_two (2 ^ 64 - 1)) = (2 ^ 64 - 1)%Z)
    by reflexivity.
  assert (Hk : 1 < length (replicas (set_count Scenario.one_two (2 ^ 64 - 1))))
    by (simpl; lia).
  split; [exact Hc|]. split; [exact Hk|].
  exact (Replica_wraps_to_first_target _ Hc Hk).
Defined.

(** ** Reconfiguration in the first revision *)

(** X9. Disabling reads on the master in the first revision, with the flag
    up: a list of fewer than two read targets makes the call panic; a
    longer one loses its last two elements, whatever they are. *)
Theorem Rev1_MasterCanRead_false_cuts_two (b : Balancer) :
  masterCanRead b = true ->
  (length (Rev1.slaves b) < 2 ->
   Rev1.MasterCanRead false b = Panic "slice bounds out of range") ∧
  (2 <= length (Rev1.slaves b) ->
   Rev1.MasterCanRead false b =
     Done (set_masterCanRead
             (set_replicas b (take (length (Rev1.slaves b) - 2) (Rev1.slaves b)))
             false)).
Proof.
  intros Hf. unfold Rev1.MasterCanRead, Rev1.slice_to, Rev1.slaves. rewrite Hf. simpl.
  split; intros Hlen; unfold Rev1.slaves in *.
  - case_decide; [lia|done].
  - case_decide; [|lia]. simpl. rewrite Hf. simpl.
    replace (Z.to_nat (Z.of_nat (length (replicas b)) - 2))
      with (length (replicas b) - 2) by lia.
    done.
Qed.

Lemma Rev1_MasterCanRead_false_cuts_two_witness :
  let b := {| DbMap := Some 0; replicas := [Some 1; Some 2; Some 0]; count := 0;
              masterCanRead := true |} in
  masterCanRead b = true ∧ 2 <= length (Rev1.slaves b) ∧
  Rev1.MasterCanRead false b =
    Done {| DbMap := Some 0; replicas := [Some 1]; count := 0;
            masterCanRead := false |}.
Proof.
  set (b := {| DbMap := Some 0; replicas := [Some 1; Some 2; Some 0]; count := 0;
               masterCanRead := true |}).
  assert (Hf : masterCanRead b = true) by reflexivity.
  assert (Hlen : 2 <= length (Rev1.slaves b)) by (simpl; lia).
  split; [exact Hf|]. split; [exact Hlen|].
  exact (proj2 (Rev1_MasterCanRead_false_cuts_two b Hf) Hlen).
Defined.

(** X10. Enabling and then disabling reads on the master in the first
    revision, from a flag that is down, does not give back the list one
    started from: its last read target is gone. *)
Theorem Rev1_enable_then_disable_loses_replica (b : Balancer) (l : list ptr) (r : ptr) :
  masterCanRead b = false -> Rev1.slaves b = l ++ [r] ->
  ∃ b1, Rev1.MasterCanRead true b = Done b1 ∧
        Rev1.slaves b1 = l ++ [r; DbMap b] ∧
        Rev1.MasterCanRead false b1 = Done (set_replicas b l).
Proof.
  intros Hf Hl. unfold Rev1.slaves in *.
  exists (set_masterCanRead (set_replicas b (replicas b ++ [DbMap b])) true).
  split_and!.
  - unfold Rev1.MasterCanRead, Rev1.slaves. rewrite Hf. simpl. by rewrite Hf.
  - simpl. by rewrite Hl, <- app_assoc.
  - unfold Rev1.MasterCanRead, Rev1.slice_to, Rev1.slaves. simpl.
    rewrite Hl, !length_app. simpl.
    rewrite decide_True by lia. simpl.
    replace (Z.to_nat (Z.of_nat (length l + 1 + 1) - 2)) with (length l) by lia.
    rewrite <- app_assoc, take_app_length.
    destruct b; simpl in *. by rewrite Hf.
Qed.

Lemma Rev1_enable_then_disable_loses_replica_witness :
  masterCanRead Scenario.one_two = false ∧
  Rev1.slaves Scenario.one_two = [Some 1] ++ [Some 2] ∧
  ∃ b1, Rev1.MasterCanRead true Scenario.one_two = Done b1 ∧
        Rev1.slaves b1 = [Some 1] ++ [Some 2; DbMap Scenario.one_two] ∧
        Rev1.MasterCanRead false b1 = Done (set_replicas Scenario.one_two [Some 1]).
Proof.
  assert (Hf : masterCanRead Scenario.one_two = false) by reflexivity.
  assert (Hl : Rev1.slaves Scenario.one_two = [Some 1] ++ [Some 2]) by reflexivity.
  split; [exact Hf|]. split; [exact Hl|].
  exact (Rev1_enable_then_disable_loses_replica _ _ _ Hf Hl).
Defined.

(** X11. No call changes the master, and a reconfiguration changes neither
    the counter nor, beyond adding or removing handles, the list: what it
    returns lists only handles that were read targets before, or the
    master. This holds in both revisions. *)
Theorem MasterCanRead_adds_only_master (read : bool) (b b' : Balancer) :
  Rev1.MasterCanRead read b = Done b' ∨ Rev2.MasterCanRead read b = Done b' ->
  DbMap b' = DbMap b ∧ count b' = count b ∧
  ∀ p, p ∈ replicas b' -> p ∈ replicas b ∨ p = DbMap b.
Proof.
  intros [Hm|Hm].
  - unfold Rev1.MasterCanRead, Rev1.slice_to, Rev1.slaves in Hm.
    destruct read, (masterCanRead b) eqn:Hf; simpl in Hm; rewrite ?Hf in Hm;
      simpl in Hm; try case_decide; simpl in Hm; rewrite ?Hf in Hm;
      simpl in Hm; try done; injection Hm as <-; simpl;
      (split_and!; [done|done|]); intros p Hp; try by left.
    + apply elem_of_app in Hp as [?|?%list_elem_of_singleton]; [by left|by right].
    + left. apply elem_of_take in Hp as (i & Hi & _). by eapply list_elem_of_lookup_2.
  - unfold Rev2.MasterCanRead in Hm.
    destruct read, (masterCanRead b) eqn:Hf; simpl in Hm; rewrite ?Hf in Hm;
      simpl in Hm; try case_bool_decide; injection Hm as <-; simpl;
      (split_and!; [done|done|]); intros p Hp; try by left.
    + apply elem_of_app in Hp as [?|?%list_elem_of_singleton]; [by left|by right].
    + left. unfold Rev2.without_master in Hp. by apply list_elem_of_filter in Hp as [_ ?].
Qed.

Lemma MasterCanRead_adds_only_master_witness :
  let b' := {| DbMap := Some 0; replicas := [Some 1; Some 2; Some 0]; count := 0;
               masterCanRead := true |} in
  (Rev1.MasterCanRead true Scenario.one_two = Done b' ∨
   Rev2.MasterCanRead true Scenario.one_two = Done b') ∧
  DbMap b' = DbMap Scenario.one_two ∧ count b' = count Scenario.one_two ∧
  ∀ p, p ∈ replicas b' -> p ∈ replicas Scenario.one_two ∨ p = DbMap Scenario.one_two.
Proof.
  set (b' := {| DbMap := Some 0; replicas := [Some 1; Some 2; Some 0]; count := 0;
                masterCanRead := true |}).
  assert (Hm : Rev1.MasterCanRead true Scenario.one_two = Done b' ∨
               Rev2.MasterCanRead true Scenario.one_two = Done b')
    by (right; reflexivity).
  split; [exact Hm|]. exact (MasterCanRead_adds_only_master true _ _ Hm).
Defined.

(** ** Fan-out: errors and nil handles *)

(** A loop that stops at the first error, as [Ping] and [Close] of the
    first revision are written. *)
Lemma first_error_spec (c : call) (ans : loc -> option error)
    (loop : list ptr -> M (option error))
    (loop_nil : loop [] = mret None)
    (loop_cons : ∀ db dbs,
       loop (db :: dbs) =
       on_handle db c ans ≫= fun err =>
         match err with Some e => mret (Some e) | None => loop dbs end) :
  (∀ addrs, Forall (fun a => ans a = None) addrs ->
     loop (Some <$> addrs) = (each c addrs, Done None)) ∧
  (∀ l1 a e rest, Forall (fun a' => ans a' = None) l1 -> ans a = Some e ->
     loop ((Some <$> l1) ++ Some a :: rest) = (each c (l1 ++ [a]), Done (Some e))).
Proof.
  split.
  - intros addrs Hall. induction Hall as [|a addrs Ha _ IH].
    + apply loop_nil.
    + rewrite fmap_cons, loop_cons, bind_on_handle, Ha, IH. done.
  - intros l1 a e rest Hall Ha. induction Hall as [|x l1 Hx _ IH].
    + rewrite fmap_nil, app_nil_l, loop_cons, bind_on_handle, Ha. done.
    + rewrite fmap_cons, <- app_comm_cons, loop_cons, bind_on_handle, Hx, IH. done.
Qed.

Section FanOutMore.
Context `{Collaborators}.

(** X13. [Ping] and [Close] of the first revision go through [GetAllDbs]
    in order and stop at the first handle that fails: they return its
    error, having called the handles up to it and none after it, be it nil;
    when no handle fails they call every one and return no error. *)
Theorem Rev1_Ping_Close_first_error (b : Balancer) :
  (∀ addrs, GetAllDbs b = Some <$> addrs ->
     (Forall (fun a => Db_Ping a = None) addrs ->
      Rev1.Ping b = (each CPing addrs, Done None)) ∧
     (Forall (fun a => Db_Close a = None) addrs ->
      Rev1.Close b = (each CClose addrs, Done None))) ∧
  (∀ l1 a e rest, GetAllDbs b = (Some <$> l1) ++ Some a :: rest ->
     (Forall (fun a' => Db_Ping a' = None) l1 -> Db_Ping a = Some e ->
      Rev1.Ping b = (each CPing (l1 ++ [a]), Done (Some e))) ∧
     (Forall (fun a' => Db_Close a' = None) l1 -> Db_Close a = Some e ->
      Rev1.Close b = (each CClose (l1 ++ [a]), Done (Some e)))).
Proof.
  pose proof (first_error_spec CPing Db_Ping Rev1.Ping_loop eq_refl
                (fun _ _ => eq_refl)) as [Hping_ok Hping_err].
  pose proof (first_error_spec CClose Db_Close Rev1.Close_loop eq_refl
                (fun _ _ => eq_refl)) as [Hclose_ok Hclose_err].
  unfold Rev1.Ping, Rev1.Close. split.
  - intros addrs ->. split; [apply Hping_ok|apply Hclose_ok].
  - intros l1 a e rest ->. split; [apply Hping_err|apply Hclose_err].
Qed.

End FanOutMore.

Lemma Rev1_Ping_Close_first_error_witness :
  GetAllDbs Scenario.one_two = (Some <$> [0]) ++ Some 1 :: [Some 2] ∧
  Forall (fun a' => Db_Close (Collaborators := Scenario.faulty) a' = None) [0] ∧
  Db_Close (Collaborators := Scenario.faulty) 1 = Some "close failed" ∧
  Rev1.Close (H := Scenario.faulty) Scenario.one_two =
    (each CClose ([0] ++ [1]), Done (Some "close failed")).
Proof.
  assert (Hall : GetAllDbs Scenario.one_two = (Some <$> [0]) ++ Some 1 :: [Some 2])
    by reflexivity.
  assert (Hok : Forall (fun a' => Db_Close (Collaborators := Scenario.faulty) a' = None) [0])
    by (constructor; [reflexivity|constructor]).
  assert (Ha : Db_Close (Collaborators := Scenario.faulty) 1 = Some "close failed")
    by reflexivity.
  split; [exact Hall|]. split; [exact Hok|]. split; [exact Ha|].
  exact (proj2 (proj2 (Rev1_Ping_Close_first_error (H := Scenario.faulty) Scenario.one_two)
                  [0] 1 "close failed" [Some 2] Hall) Hok Ha).
Defined.

(** ** Splitting the list of data source names *)

Lemma length_zero_empty (s : string) : String.length s = 0 -> s = EmptyString.
Proof. by destruct s. Qed.

Lemma sep_free_String (c : Ascii.ascii) (s : string) :
  sep_free (String c s) ↔ c ≠ ";"%char ∧ sep_free s.
Proof.
  unfold sep_free. simpl. rewrite not_elem_of_cons. split; intros [??]; split; congruence.
Qed.

Lemma Split_app_sep (s t : string) :
  sep_free s -> Split (s +:+ String ";" t) ";" = s :: Split t ";".
Proof.
  induction s as [|c s IH]; intros Hfree; simpl; [done|].
  apply sep_free_String in Hfree as [Hc Hs].
  destruct (Ascii.eqb_spec c ";"); [done|]. by rewrite IH.
Qed.

Lemma Split_sep_free (s : string) : sep_free s -> Split s ";" = [s].
Proof.
  induction s as [|c s IH]; intros Hfree; simpl; [done|].
  apply sep_free_String in Hfree as [Hc Hs].
  destruct (Ascii.eqb_spec c ";"); [done|]. by rewrite IH.
Qed.

(** Names that hold no separator, joined by separators, split back into
    themselves. *)
Lemma Split_concat (names : list string) :
  names ≠ [] -> Forall sep_free names ->
  Split (String.concat ";" names) ";" = names.
Proof.
  intros Hne Hall. induction Hall as [|n names Hn Hnames IH]; [done|].
  destruct names as [|n' names].
  - by apply Split_sep_free.
  - change (String.concat ";" (n :: n' :: names))
      with (n +:+ String ";" (String.concat ";" (n' :: names))).
    rewrite Split_app_sep by done. by rewrite IH.
Qed.

(** A separator at the end adds one empty piece. *)
Lemma Split_trailing_sep (s : string) :
  Split (s +:+ ";") ";" = Split s ";" ++ [EmptyString].
Proof.
  induction s as [|c s IH]; simpl; [done|].
  destruct (Ascii.eqb c ";"); [by rewrite IH|].
  rewrite IH. destruct (Split s ";") as [|piece pieces] eqn:Hs; [|done].
  pose proof (Split_nonempty s ";") as Hlen. rewrite Hs in Hlen. simpl in Hlen. lia.
Qed.

Section ConstructionMore.
Context `{Collaborators}.

(** Past its first round, over names that all open, the loop of either
    revision appends one fresh handle per name. *)
Lemma loops_append_opened driverName dialect (names : list string) (dbs : list sql_DB) :
  Forall2 (fun n db => n ≠ EmptyString ∧ sql_Open driverName n = Ok db) names dbs ->
  ∀ i b h, 0 < i ->
    let result := Ok (set_replicas b (replicas b ++ (Some <$> seq (length h) (length names))),
                      h ++ (cell_of dialect <$> dbs)) in
    Rev1.NewBalancer_loop driverName dialect i names b h = result ∧
    Rev2.NewBalancer_loop driverName dialect i names b h = result.
Proof.
  induction 1 as [|n db names dbs [Hn Hopen] _ IH]; intros i b h Hi; simpl.
  - rewrite !app_nil_r. by destruct b.
  - destruct (decide (String.length n = 0)) as [?%length_zero_empty|_]; [done|].
    rewrite Hopen. destruct (decide (i = 0)); [lia|]. simpl.
    destruct (IH (S i) (set_replicas b (replicas b ++ [Some (length h)]))
                (h ++ [mkDbMap db dialect])) as [IH1 IH2]; [lia|].
    assert (Hresult :
      Ok (set_replicas
            (set_replicas b (replicas b ++ [Some (length h)]))
            (replicas (set_replicas b (replicas b ++ [Some (length h)])) ++
             (Some <$> seq (length (h ++ [mkDbMap db dialect])) (length names))),
          (h ++ [mkDbMap db dialect]) ++ (cell_of dialect <$> dbs)) =
      Ok (set_replicas b
            (replicas b ++ (Some <$> seq (length h) (length (n :: names)))),
          h ++ (cell_of dialect <$> db :: dbs))).
    { simpl. rewrite length_app. simpl. rewrite Nat.add_1_r, <- !app_assoc. done. }
    split; (etransitivity; [|exact Hresult]); [exact IH1|exact IH2].
Qed.

(** X16. From non-empty names without separator, joined by [;], that all
    open, both revisions build the same balancer: the first name is the
    master, the others are the read targets in their order, on fresh
    handles allocated in that order; the flag is down unless there is no
    other name, in which case the master is the one read target. *)
Theorem NewBalancer_of_names driverName dialect (h : heap)
    (name : string) (names : list string) (db : sql_DB) (dbs : list sql_DB) :
  Forall sep_free (name :: names) ->
  Forall2 (fun n d => n ≠ EmptyString ∧ sql_Open driverName n = Ok d)
          (name :: names) (db :: dbs) ->
  let b := {| DbMap := Some (length h);
              replicas := if decide (names = []) then [Some (length h)]
                          else Some <$> seq (S (length h)) (length names);
              count := 0;
              masterCanRead := bool_decide (names = []) |} in
  let h' := h ++ (cell_of dialect <$> db :: dbs) in
  Rev1.NewBalancer driverName dialect (String.concat ";" (name :: names)) h = Ok (b, h') ∧
  Rev2.NewBalancer driverName dialect (String.concat ";" (name :: names)) h = Ok (b, h').
Proof.
  intros Hfree Hopen. cbv zeta.
  apply Forall2_cons in Hopen as [[Hname Hdb] Hrest].
  unfold Rev1.NewBalancer, Rev2.NewBalancer.
  rewrite Split_concat by done. simpl.
  destruct (decide (String.length name = 0)) as [?%length_zero_empty|_]; [done|].
  rewrite Hdb. simpl.
  destruct (loops_append_opened driverName dialect names dbs Hrest 1
              (set_DbMap Balancer_zero (Some (length h)))
              (h ++ [mkDbMap db dialect])) as [H1 H2]; [lia|].
  simpl in H1, H2. rewrite length_app in H1, H2. simpl in H1, H2.
  rewrite Nat.add_1_r, <- !app_assoc in H1, H2. simpl in H1, H2.
  split.
  - match goal with
    | |- context [Rev1.NewBalancer_loop ?a ?b ?c ?d ?e ?f] =>
        replace (Rev1.NewBalancer_loop a b c d e f) with
          (Ok (set_replicas (set_DbMap Balancer_zero (Some (length h)))
                 (Some <$> seq (S (length h)) (length names)),
               h ++ mkDbMap db dialect :: (cell_of dialect <$> dbs)))
          by (symmetry; exact H1)
    end.
    by destruct names.
  - match goal with
    | |- context [Rev2.NewBalancer_loop ?a ?b ?c ?d ?e ?f] =>
        replace (Rev2.NewBalancer_loop a b c d e f) with
          (Ok (set_replicas (set_DbMap Balancer_zero (Some (length h)))
                 (Some <$> seq (S (length h)) (length names)),
               h ++ mkDbMap db dialect :: (cell_of dialect <$> dbs)))
          by (symmetry; exact H2)
    end.
    by destruct names.
Qed.

(** Where the loop of the second revision fails. *)
Lemma Rev2_loop_Err driverName dialect (conns : list string) (e : error) :
  ∀ i b h,
    Rev2.NewBalancer_loop driverName dialect i conns b h = Err e ↔
    ∃ l1 c l2, conns = l1 ++ c :: l2 ∧ Forall (opens driverName) l1 ∧
               c ≠ EmptyString ∧ sql_Open driverName c = Err e.
Proof.
  induction conns as [|c conns IH]; intros i b h; simpl.
  - split; [done|]. intros (l1 & c & l2 & Hl & _). by destruct l1.
  - case_decide as Hc.
    + assert (c = EmptyString) as -> by (by apply length_zero_empty).
      rewrite IH. split.
      * intros (l1 & c & l2 & -> & Hall & Hne & He).
        exists (EmptyString :: l1), c, l2. split_and!; try done.
        constructor; [by left|done].
      * intros (l1 & c & l2 & Hl & Hall & Hne & He).
        destruct l1 as [|x l1]; simpl in Hl; injection Hl as <- ->; [done|].
        apply Forall_cons in Hall as [_ Hall]. by exists l1, c, l2.
    + assert (c ≠ EmptyString) as Hne by (intros ->; by apply Hc).
      destruct (sql_Open driverName c) as [s|err] eqn:Hopen.
      * rewrite IH. split.
        -- intros (l1 & c' & l2 & -> & Hall & Hne' & He).
           exists (c :: l1), c', l2. split_and!; try done.
           constructor; [right; by exists s|done].
        -- intros (l1 & c' & l2 & Hl & Hall & Hne' & He).
           destruct l1 as [|x l1]; simpl in Hl; injection Hl as <- ->; [congruence|].
           apply Forall_cons in Hall as [_ Hall]. by exists l1, c', l2.
      * split.
        -- intros [= ->]. exists [], c, conns. split_and!; try done.
        -- intros (l1 & c' & l2 & Hl & Hall & Hne' & He).
           destruct l1 as [|x l1]; simpl in Hl; injection Hl as <- ->; [congruence|].
           apply Forall_cons in Hall as [[?|[db Hdb]] _]; congruence.
Qed.

(** Where the loop of the first revision fails. *)
Lemma Rev1_loop_Err driverName dialect (conns : list string) (e : error) :
  ∀ i b h,
    Rev1.NewBalancer_loop driverName dialect i conns b h = Err e ↔
    ∃ l1 c l2, conns = l1 ++ c :: l2 ∧
               Forall (fun c' => ∃ db, sql_Open driverName c' = Ok db) l1 ∧
               sql_Open driverName c = Err e.
Proof.
  induction conns as [|c conns IH]; intros i b h; simpl.
  - split; [done|]. intros (l1 & c & l2 & Hl & _). by destruct l1.
  - destruct (sql_Open driverName c) as [s|err] eqn:Hopen.
    + rewrite IH. split.
      * intros (l1 & c' & l2 & -> & Hall & He).
        exists (c :: l1), c', l2. split_and!; try done.
        constructor; [by exists s|done].
      * intros (l1 & c' & l2 & Hl & Hall & He).
        destruct l1 as [|x l1]; simpl in Hl; injection Hl as <- ->; [congruence|].
        apply Forall_cons in Hall as [_ Hall]. by exists l1, c', l2.
    + split.
      * intros [= ->]. exists [], c, conns. split_and!; try done.
      * intros (l1 & c' & l2 & Hl & Hall & He).
        destruct l1 as [|x l1]; simpl in Hl; injection Hl as <- ->; [congruence|].
        apply Forall_cons in Hall as [[db Hdb] _]. congruence.
Qed.

(** X17. [NewBalancer] fails exactly when [sql.Open] fails on a piece, and
    then with the error of the first piece on which it fails: in the first
    revision among all the pieces, in the second among those that are not
    empty. No other error is ever returned. *)
Theorem NewBalancer_fails_with_first_open_error driverName dialect sources (h : heap)
    (e : error) :
  (Rev1.NewBalancer driverName dialect sources h = Err e ↔
   ∃ l1 c l2, Split sources ";" = l1 ++ c :: l2 ∧
              Forall (fun c' => ∃ db, sql_Open driverName c' = Ok db) l1 ∧
              sql_Open driverName c = Err e) ∧
  (Rev2.NewBalancer driverName dialect sources h = Err e ↔
   ∃ l1 c l2, Split sources ";" = l1 ++ c :: l2 ∧
              Forall (opens driverName) l1 ∧
              c ≠ EmptyString ∧ sql_Open driverName c = Err e).
Proof.
  pose proof (Split_nonempty sources ";") as Hne. split.
  - rewrite <- (Rev1_loop_Err driverName dialect _ e 0 Balancer_zero h).
    unfold Rev1.NewBalancer. rewrite decide_False by lia.
    by destruct (Rev1.NewBalancer_loop _ _ _ _ _ _) as [[??]|?].
  - rewrite <- (Rev2_loop_Err driverName dialect _ e 0 Balancer_zero h).
    unfold Rev2.NewBalancer. rewrite decide_False by lia.
    by destruct (Rev2.NewBalancer_loop _ _ _ _ _ _) as [[??]|?].
Qed.

(** An empty piece at the end changes nothing in the second revision. *)
Lemma Rev2_loop_trailing_empty driverName dialect (conns : list string) :
  ∀ i b h,
    Rev2.NewBalancer_loop driverName dialect i (conns ++ [EmptyString]) b h =
    Rev2.NewBalancer_loop driverName dialect i conns b h.
Proof.
  induction conns as [|c conns IH]; intros i b h; simpl; [done|].
  case_decide; [done|]. by destruct (sql_Open driverName c).
Qed.

(** X18. In the second revision a separator at the end of the sources is
    ignored. *)
Theorem Rev2_NewBalancer_trailing_separator driverName dialect sources (h : heap) :
  Rev2.NewBalancer driverName dialect (sources +:+ ";") h =
  Rev2.NewBalancer driverName dialect sources h.
Proof.
  unfold Rev2.NewBalancer. rewrite Split_trailing_sep.
  pose proof (Split_nonempty sources ";") as Hne.
  rewrite !decide_False by (rewrite ?length_app; simpl; lia).
  by rewrite Rev2_loop_trailing_empty.
Qed.

(** X19. In the second revision only the first piece can become the
    master: when the sources are empty or begin with a separator the
    balancer returned has a nil master, and otherwise its master is the
    first handle allocated. *)
Theorem Rev2_NewBalancer_master driverName dialect sources (h : heap) b h' :
  Rev2.NewBalancer driverName dialect sources h = Ok (b, h') ->
  (DbMap b = nil ↔ sources = EmptyString ∨ ∃ s, sources = String ";" s) ∧
  (DbMap b ≠ nil -> DbMap b = Some (length h)).
Proof.
  unfold Rev2.NewBalancer. case_decide; [done|].
  destruct (Rev2.NewBalancer_loop _ _ _ _ _ _) as [[b0 h0]|err] eqn:Hloop; [|done].
  intros [= <- <-].
  assert (DbMap (if decide (length (replicas b0) = 0)
                 then set_masterCanRead (set_replicas b0 (replicas b0 ++ [DbMap b0])) true
                 else b0) = DbMap b0) as -> by (by case_decide).
  destruct sources as [|c s].
  - simpl in Hloop. injection Hloop as <- <-. simpl. split; [|done].
    split; [by left|done].
  - simpl in Hloop. destruct (Ascii.eqb_spec c ";") as [->|Hc].
    + simpl in Hloop. apply Rev2_loop_keeps_master in Hloop; [|lia].
      rewrite Hloop. simpl. split; [|done]. split; [right; by eexists|done].
    + destruct (Split s ";") as [|piece pieces]; simpl in Hloop.
      * destruct (sql_Open driverName (String c EmptyString)); [|done].
        injection Hloop as <- <-. simpl. split; [|done].
        split; [done|]. intros [?|[s' [= -> _]]]; done.
      * destruct (sql_Open driverName (String c piece)); [|done].
        apply Rev2_loop_keeps_master in Hloop; [|lia].
        rewrite Hloop. simpl. split; [|done].
        split; [done|]. intros [?|[s' [= -> _]]]; done.
Qed.

(** X15. The balancer that the second revision builds from sources that
    are empty or begin with a separator panics at once on every call that
    goes through [GetAllDbs], before any handle is called: its master is
    nil. *)
Theorem Rev2_nil_master_panics driverName dialect sources (h : heap) b h' :
  Rev2.NewBalancer driverName dialect sources h = Ok (b, h') ->
  sources = EmptyString ∨ (∃ s, sources = String ";" s) ->
  (∀ n, SetMaxIdleConns b n = ([], Panic nil_dereference)) ∧
  (∀ n, SetMaxOpenConns b n = ([], Panic nil_dereference)) ∧
  (∀ d, SetConnMaxLifetime b d = ([], Panic nil_dereference)) ∧
  Rev2.Ping b = ([], Panic nil_dereference) ∧
  Rev2.Close b = ([], Panic nil_dereference).
Proof.
  intros Hnew Hsources.
  assert (DbMap b = nil) as Hnil.
  { revert Hnew. unfold Rev2.NewBalancer. case_decide; [done|].
    destruct (Rev2.NewBalancer_loop _ _ _ _ _ _) as [[b0 h0]|err] eqn:Hloop; [|done].
    intros [= <- <-].
    assert (DbMap b0 = nil) as Hb0.
    { destruct Hsources as [->|[s ->]]; simpl in Hloop.
      - by injection Hloop as <- <-.
      - by apply Rev2_loop_keeps_master in Hloop; [|lia]. }
    by case_decide. }
  unfold SetMaxIdleConns, SetMaxOpenConns, SetConnMaxLifetime, Rev2.Ping, Rev2.Close.
  rewrite GetAllDbs_cons, Hnil. split_and!; done.
Qed.

End ConstructionMore.

(** ** The read methods *)

Section ReadMethodsFacts.
Context `{Collaborators} `{ReadMethods}.

(** X21. When calls on the balancer do not overlap - no reconfiguration
    runs between the computation of the index in [Slave] and the indexing -
    on a topology of the first revision that has a read target, the nine
    read methods all go to the handle that [Slave] returns: it is one of
    the read targets, it is not nil, it is not the master while the flag is
    down, and the method's answer on it is what the balancer returns, the
    balancer being left as [Slave] leaves it. The topologies are those
    that calls made one after the other reach. *)
Theorem read_methods_go_to_selected_slave (b : Balancer) :
  Rev1.reachable b -> Rev1.slaves b ≠ [] ->
  ∃ a b',
    Rev1.Slave b = Done (Some a, b') ∧
    Some a ∈ Rev1.slaves b ∧
    (masterCanRead b = false -> Some a ≠ DbMap b) ∧
    (∀ i keys, Get b i keys = Done (DbMap_Get a i keys, b')) ∧
    (∀ i query args, Select b i query args = Done (DbMap_Select a i query args, b')) ∧
    (∀ query args, SelectFloat b query args = Done (DbMap_SelectFloat a query args, b')) ∧
    (∀ query args, SelectInt b query args = Done (DbMap_SelectInt a query args, b')) ∧
    (∀ query args,
       SelectNullFloat b query args = Done (DbMap_SelectNullFloat a query args, b')) ∧
    (∀ query args,
       SelectNullInt b query args = Done (DbMap_SelectNullInt a query args, b')) ∧
    (∀ query args,
       SelectNullStr b query args = Done (DbMap_SelectNullStr a query args, b')) ∧
    (∀ holder query args,
       SelectOne b holder query args = Done (DbMap_SelectOne a holder query args, b')) ∧
    (∀ query args, SelectStr b query args = Done (DbMap_SelectStr a query args, b')).
Proof.
  intros (Hflag & _ & _ & _ & Hnil)%Rev1_reachable_invariant Hne.
  rewrite GetAllDbs_cons, not_elem_of_cons in Hnil. destruct Hnil as [_ Hnil].
  unfold Rev1.slaves in *.
  destruct (replica_index_bound b Hne) as (i & b' & Hr & Hi & Hsame).
  destruct (replicas b !! Z.to_nat i) as [db|] eqn:Hdb;
    [|apply lookup_ge_None in Hdb; lia].
  assert (db ∈ replicas b) as Hin by (by eapply list_elem_of_lookup_2).
  destruct db as [a|]; [|done].
  assert (Rev1.Slave b = Done (Some a, b')) as HS.
  { unfold Rev1.Slave, Replica. rewrite Hr. simpl. rewrite decide_True by lia.
    by rewrite Hsame, Hdb. }
  exists a, b'. split_and!; try done.
  - intros Hf Hm. rewrite Hm in Hin. apply Hflag in Hin. congruence.
  - intros. unfold Get, on_Slave. by rewrite HS.
  - intros. unfold Select, on_Slave. by rewrite HS.
  - intros. unfold SelectFloat, on_Slave. by rewrite HS.
  - intros. unfold SelectInt, on_Slave. by rewrite HS.
  - intros. unfold SelectNullFloat, on_Slave. by rewrite HS.
  - intros. unfold SelectNullInt, on_Slave. by rewrite HS.
  - intros. unfold SelectNullStr, on_Slave. by rewrite HS.
  - intros. unfold SelectOne, on_Slave. by rewrite HS.
  - intros. unfold SelectStr, on_Slave. by rewrite HS.
Qed.

End ReadMethodsFacts.

(** ** Tracing *)

Section TracingFacts.
Context {GorpLogger : Type}.
Implicit Types (t : gmap loc (string * GorpLogger)) (logger : GorpLogger).

(** The settings after switching a list of handles on. *)
Lemma TraceOn_loop_settings (addrs : list loc) (prefix : string) logger : ∀ t,
  ∃ t', TraceOn_loop (Some <$> addrs) prefix logger t = (t', Done tt) ∧
        (∀ a, a ∈ addrs -> t' !! a = Some ((prefix ++ " <slave>")%string, logger)) ∧
        (∀ a, a ∉ addrs -> t' !! a = t !! a).
Proof.
  induction addrs as [|x addrs IH]; intros t.
  - exists t. split_and!; [done| |done]. by intros a ?%elem_of_nil.
  - destruct (IH (<[x := ((prefix ++ " <slave>")%string, logger)]> t))
      as (t' & Hrun & Hin & Hout).
    exists t'. split_and!.
    + rewrite fmap_cons. simpl. exact Hrun.
    + intros a Ha. destruct (decide (a ∈ addrs)); [by apply Hin|].
      apply elem_of_cons in Ha as [->|?]; [|done].
      by rewrite Hout, lookup_insert_eq.
    + intros a [Hax Ha]%not_elem_of_cons.
      by rewrite Hout, lookup_insert_ne.
Qed.

(** The settings after switching a list of handles off. *)
Lemma TraceOff_loop_settings (addrs : list loc) : ∀ t,
  ∃ t', TraceOff_loop (Some <$> addrs) t = (t', Done tt) ∧
        (∀ a, a ∈ addrs -> t' !! a = None) ∧
        (∀ a, a ∉ addrs -> t' !! a = t !! a).
Proof.
  induction addrs as [|x addrs IH]; intros t.
  - exists t. split_and!; [done| |done]. by intros a ?%elem_of_nil.
  - destruct (IH (delete x t)) as (t' & Hrun & Hin & Hout).
    exists t'. split_and!.
    + rewrite fmap_cons. simpl. exact Hrun.
    + intros a Ha. destruct (decide (a ∈ addrs)); [by apply Hin|].
      apply elem_of_cons in Ha as [->|?]; [|done].
      by rewrite Hout, lookup_delete_eq.
    + intros a [Hax Ha]%not_elem_of_cons.
      by rewrite Hout, lookup_delete_ne.
Qed.

(** X22. [TraceOn] on a balancer without nil handle returns, and leaves
    the master traced under the master's prefix, also when the master is a
    read target; every other read target traced under the slaves' prefix;
    and the setting of every other handle as it was. *)
Theorem TraceOn_settings (b : Balancer) (m : loc) (addrs : list loc)
    (prefix : string) logger t :
  DbMap b = Some m -> Rev1.slaves b = Some <$> addrs ->
  ∃ t', TraceOn b prefix logger t = (t', Done tt) ∧
        t' !! m = Some ((prefix ++ " <master>")%string, logger) ∧
        (∀ a, a ∈ addrs -> a ≠ m ->
              t' !! a = Some ((prefix ++ " <slave>")%string, logger)) ∧
        (∀ a, a ∉ addrs -> a ≠ m -> t' !! a = t !! a).
Proof.
  intros Hm Hs.
  destruct (TraceOn_loop_settings addrs prefix logger t) as (t1 & Hrun & Hin & Hout).
  exists (<[m := ((prefix ++ " <master>")%string, logger)]> t1).
  unfold TraceOn. rewrite Hs, Hrun, Hm. simpl. split_and!.
  - done.
  - apply lookup_insert_eq.
  - intros a Ha Hne. rewrite lookup_insert_ne by done. by apply Hin.
  - intros a Ha Hne. rewrite lookup_insert_ne by done. by apply Hout.
Qed.

(** X23. [TraceOff] on a balancer without nil handle returns and leaves
    none of its handles traced and every other handle as it was; after a
    [TraceOn] on handles that were not traced it gives back the settings
    one started from. *)
Theorem TraceOff_settings (b : Balancer) (addrs : list loc) (prefix : string) logger t :
  GetAllDbs b = Some <$> addrs ->
  (∃ t', TraceOff b t = (t', Done tt) ∧
         (∀ a, a ∈ addrs -> t' !! a = None) ∧
         (∀ a, a ∉ addrs -> t' !! a = t !! a)) ∧
  ((∀ a, a ∈ addrs -> t !! a = None) ->
   ∃ t1, TraceOn b prefix logger t = (t1, Done tt) ∧ TraceOff b t1 = (t, Done tt)).
Proof.
  intros Hall. split.
  - unfold TraceOff. rewrite Hall. apply TraceOff_loop_settings.
  - intros Hfree.
    destruct addrs as [|m addrs]; [done|]. rewrite GetAllDbs_cons, fmap_cons in Hall.
    injection Hall as Hm Hs.
    destruct (TraceOn_loop_settings addrs prefix logger t) as (t0 & Hrun & _ & Hout0).
    set (t1 := <[m := ((prefix ++ " <master>")%string, logger)]> t0).
    assert (Hothers : ∀ a, a ∉ addrs -> a ≠ m -> t1 !! a = t !! a).
    { intros a Ha Hne. unfold t1. rewrite lookup_insert_ne by done. by apply Hout0. }
    exists t1. split; [unfold TraceOn, Rev1.slaves; by rewrite Hs, Hrun, Hm|].
    destruct (TraceOff_loop_settings (m :: addrs) t1) as (t2 & Hoff & Hin & Hout).
    assert (TraceOff b t1 = (t2, Done tt)) as ->
      by (unfold TraceOff; rewrite GetAllDbs_cons, Hm, Hs; exact Hoff).
    f_equal. apply map_eq. intros a.
    destruct (decide (a ∈ m :: addrs)) as [Ha|Ha].
    + by rewrite Hin, Hfree.
    + rewrite Hout by done. apply not_elem_of_cons in Ha as [??]. by apply Hothers.
Qed.

End TracingFacts.

(** ** More on reconfiguration and fan-out in the second revision *)

(** X12. A reconfiguration of the second revision never touches the read
    targets other than the master: whatever it returns lists them all, in
    the order they had. *)
Theorem Rev2_MasterCanRead_keeps_other_targets (read : bool) (b : Balancer) :
  ∃ b', Rev2.MasterCanRead read b = Done b' ∧
        filter (fun db => db ≠ DbMap b) (replicas b') =
        filter (fun db => db ≠ DbMap b) (replicas b).
Proof.
  assert (∃ b', Rev2.MasterCanRead read b = Done b') as [b' Hm] by by eexists.
  exists b'. split; [done|]. unfold Rev2.MasterCanRead in Hm.
  destruct read, (masterCanRead b) eqn:Hf; simpl in Hm; rewrite ?Hf in Hm;
    simpl in Hm; try case_bool_decide; injection Hm as <-; simpl; try done.
  - rewrite filter_app, filter_cons_False by (intros ?; done). by rewrite app_nil_r.
  - unfold Rev2.without_master. clear. induction (replicas b) as [|p l IH]; [done|].
    rewrite (filter_cons _ p). case_decide; [|done].
    rewrite filter_cons_True by done. by rewrite IH.
Qed.

Section MoreFanOut.
Context `{Collaborators}.

(** X14. [Ping] and [Close] of the second revision, on a balancer without
    nil handle on which [GetAllDbs] lists no handle twice (the master is
    not a read target, so that every handle is called once and answers
    once), call every element of [GetAllDbs] in order whatever the handles
    answer, return no error exactly when no handle failed, and otherwise
    return the error of the last handle that failed. *)
Theorem Rev2_Ping_Close_try_every_handle (b : Balancer) (addrs : list loc) :
  GetAllDbs b = Some <$> addrs -> NoDup addrs ->
  (calls (Rev2.Ping b) = each CPing addrs ∧
   ∃ r, outcome_of (Rev2.Ping b) = Done r ∧
        (r = None ↔ Forall (fun a => Db_Ping a = None) addrs) ∧
        ∀ e, r = Some e ->
          ∃ l1 a l2, addrs = l1 ++ a :: l2 ∧ Db_Ping a = Some e ∧
                     Forall (fun a' => Db_Ping a' = None) l2) ∧
  (calls (Rev2.Close b) = each CClose addrs ∧
   ∃ r, outcome_of (Rev2.Close b) = Done r ∧
        (r = None ↔ Forall (fun a => Db_Close a = None) addrs) ∧
        ∀ e, r = Some e ->
          ∃ l1 a l2, addrs = l1 ++ a :: l2 ∧ Db_Close a = Some e ∧
                     Forall (fun a' => Db_Close a' = None) l2).
Proof.
  intros Hall _. unfold Rev2.Ping, Rev2.Close. rewrite Hall. split.
  - destruct (Rev2_Ping_loop_all addrs None) as (Hcalls & r & Hr & Hnone & Hsome).
    split; [done|]. exists r. split_and!; [done| |].
    + rewrite Hnone. split; [by intros [_ ?]|done].
    + intros e He. by destruct (Hsome e He) as [?|[? _]].
  - destruct (Rev2_Close_loop_all addrs None) as (Hcalls & r & Hr & Hnone & Hsome).
    split; [done|]. exists r. split_and!; [done| |].
    + rewrite Hnone. split; [by intros [_ ?]|done].
    + intros e He. by destruct (Hsome e He) as [?|[? _]].
Qed.

(** X20. What the second revision allocates: one cell per piece of the
    sources that is not empty, in their order, each holding what [sql.Open]
    returned for that piece and the dialect; the cells that were there stay
    as they were. *)
Theorem Rev2_NewBalancer_opens_nonempty_pieces driverName dialect sources
    (h : heap) b h' :
  Rev2.NewBalancer driverName dialect sources h = Ok (b, h') ->
  ∃ cells,
    h' = h ++ cells ∧
    Forall2 (fun c cell => sql_Open driverName c = Ok (Db cell) ∧ Dialect cell = dialect)
            (filter (fun c => c ≠ EmptyString) (Split sources ";")) cells.
Proof.
  unfold Rev2.NewBalancer. case_decide; [done|].
  destruct (Rev2.NewBalancer_loop _ _ _ _ _ _) as [[b0 h0]|err] eqn:Hloop; [|done].
  intros [= <- <-]. by eapply Rev2_loop_opens_nonempty.
Qed.

End MoreFanOut.

(** ** The properties on the concrete worlds *)

Lemma Rev2_reachable_one_two : Rev2.reachable (H := Scenario.healthy) Scenario.one_two.
Proof.
  by apply (Rev2.reach_NewBalancer (H := Scenario.healthy) "mysql" tt "A;B;C" []
              Scenario.one_two
              [Scenario.cell "A"; Scenario.cell "B"; Scenario.cell "C"]).
Defined.

Lemma Rev1_reachable_one_two : Rev1.reachable (H := Scenario.healthy) Scenario.one_two.
Proof.
  by apply (Rev1.reach_NewBalancer (H := Scenario.healthy) "mysql" tt "A;B;C" []
              Scenario.one_two
              [Scenario.cell "A"; Scenario.cell "B"; Scenario.cell "C"]).
Defined.

Lemma Rev2_reachable_one_two_master :
  Rev2.reachable (H := Scenario.healthy) MoreScenario.one_two_master.
Proof.
  by apply (Rev2.reach_MasterCanRead (H := Scenario.healthy) true Scenario.one_two
              MoreScenario.one_two_master Rev2_reachable_one_two).
Defined.

Lemma Rev2_topology_well_formed_witness :
  Rev2.reachable (H := Scenario.healthy) Scenario.one_two ∧
  replicas Scenario.one_two ≠ [] ∧
  (masterCanRead Scenario.one_two = true ↔ DbMap Scenario.one_two ∈ replicas Scenario.one_two) ∧
  NoDup (replicas Scenario.one_two) ∧
  (0 <= count Scenario.one_two < 2 ^ 64)%Z ∧
  (nil ∈ replicas Scenario.one_two -> DbMap Scenario.one_two = nil).
Proof.
  split; [exact Rev2_reachable_one_two|].
  exact (Rev2_topology_well_formed (H := Scenario.healthy) _ Rev2_reachable_one_two).
Defined.

Lemma Rev1_topology_well_formed_witness :
  Rev1.reachable (H := Scenario.healthy) Scenario.one_two ∧
  (masterCanRead Scenario.one_two = true ↔
   DbMap Scenario.one_two ∈ Rev1.slaves Scenario.one_two) ∧
  (masterCanRead Scenario.one_two = true ->
   last (Rev1.slaves Scenario.one_two) = Some (DbMap Scenario.one_two)) ∧
  NoDup (Rev1.slaves Scenario.one_two) ∧
  (0 <= count Scenario.one_two < 2 ^ 64)%Z ∧
  DbMap Scenario.one_two ≠ nil ∧ nil ∉ Rev1.slaves Scenario.one_two.
Proof.
  split; [exact Rev1_reachable_one_two|].
  exact (Rev1_topology_well_formed (H := Scenario.healthy) _ Rev1_reachable_one_two).
Defined.

Lemma Rev2_Replica_never_panics_witness :
  Rev2.reachable (H := Scenario.healthy) Scenario.one_two ∧
  ∃ db b', Replica Scenario.one_two = Done (db, b') ∧
           db ∈ replicas Scenario.one_two ∧
           (masterCanRead Scenario.one_two = false -> db ≠ DbMap Scenario.one_two) ∧
           Rev2.reachable (H := Scenario.healthy) b'.
Proof.
  split; [exact Rev2_reachable_one_two|].
  exact (Rev2_Replica_never_panics (H := Scenario.healthy) _ Rev2_reachable_one_two).
Defined.

Lemma Rev2_enable_then_disable_witness :
  Rev2.reachable (H := Scenario.healthy) Scenario.one_two ∧
  masterCanRead Scenario.one_two = false ∧
  ∃ b1, Rev2.MasterCanRead true Scenario.one_two = Done b1 ∧
        replicas b1 = replicas Scenario.one_two ++ [DbMap Scenario.one_two] ∧
        Rev2.MasterCanRead false b1 = Done Scenario.one_two.
Proof.
  assert (Hf : masterCanRead Scenario.one_two = false) by reflexivity.
  split; [exact Rev2_reachable_one_two|]. split; [exact Hf|].
  exact (Rev2_enable_then_disable (H := Scenario.healthy) _ Rev2_reachable_one_two Hf).
Defined.

Lemma Rev2_disable_then_enable_witness :
  Rev2.reachable (H := Scenario.healthy) MoreScenario.one_two_master ∧
  masterCanRead MoreScenario.one_two_master = true ∧
  1 < length (replicas MoreScenario.one_two_master) ∧
  ∃ b1 b2, Rev2.MasterCanRead false MoreScenario.one_two_master = Done b1 ∧
           Rev2.MasterCanRead true b1 = Done b2 ∧
           replicas b2 = Rev2.without_master MoreScenario.one_two_master
                         ++ [DbMap MoreScenario.one_two_master] ∧
           replicas b2 ≡ₚ replicas MoreScenario.one_two_master ∧
           masterCanRead b2 = true ∧ DbMap b2 = DbMap MoreScenario.one_two_master ∧
           count b2 = count MoreScenario.one_two_master.
Proof.
  assert (Hf : masterCanRead MoreScenario.one_two_master = true) by reflexivity.
  assert (Hk : 1 < length (replicas MoreScenario.one_two_master)) by (simpl; lia).
  split; [exact Rev2_reachable_one_two_master|]. split; [exact Hf|]. split; [exact Hk|].
  exact (Rev2_disable_then_enable (H := Scenario.healthy) _
           Rev2_reachable_one_two_master Hf Hk).
Defined.

Lemma Rev2_Ping_Close_try_every_handle_witness :
  GetAllDbs Scenario.one_two = Some <$> [0; 1; 2] ∧
  NoDup [0; 1; 2] ∧
  calls (Rev2.Ping (H := Scenario.faulty) Scenario.one_two) = each CPing [0; 1; 2] ∧
  calls (Rev2.Close (H := Scenario.faulty) Scenario.one_two) = each CClose [0; 1; 2].
Proof.
  assert (Hall : GetAllDbs Scenario.one_two = Some <$> [0; 1; 2]) by reflexivity.
  assert (Hnd : NoDup [0; 1; 2]) by (by apply (bool_decide_unpack _)).
  pose proof (Rev2_Ping_Close_try_every_handle (H := Scenario.faulty)
                Scenario.one_two [0; 1; 2] Hall Hnd) as [[Hping _] [Hclose _]].
  split; [exact Hall|]. split; [exact Hnd|]. split; [exact Hping|exact Hclose].
Defined.

Lemma NewBalancer_of_names_witness :
  Forall sep_free ["A"; "B"; "C"] ∧
  Forall2 (fun n d => n ≠ EmptyString ∧
                      sql_Open (Collaborators := Scenario.healthy) "mysql" n = Ok d)
          ["A"; "B"; "C"] ["A"; "B"; "C"] ∧
  Rev1.NewBalancer (H := Scenario.healthy) "mysql" tt "A;B;C" [] =
    Ok (Scenario.one_two, [Scenario.cell "A"; Scenario.cell "B"; Scenario.cell "C"]) ∧
  Rev2.NewBalancer (H := Scenario.healthy) "mysql" tt "A;B;C" [] =
    Ok (Scenario.one_two, [Scenario.cell "A"; Scenario.cell "B"; Scenario.cell "C"]).
Proof.
  assert (Hfree : Forall sep_free ["A"; "B"; "C"]).
  { repeat constructor; unfold sep_free; simpl; intros Hin;
      repeat (apply elem_of_cons in Hin as [?|Hin]; [done|]); by apply elem_of_nil in Hin. }
  assert (Hopen : Forall2 (fun n d => n ≠ EmptyString ∧
                      sql_Open (Collaborators := Scenario.healthy) "mysql" n = Ok d)
                    ["A"; "B"; "C"] ["A"; "B"; "C"])
    by (repeat constructor; done).
  split; [exact Hfree|]. split; [exact Hopen|].
  exact (NewBalancer_of_names (H := Scenario.healthy) "mysql" tt [] "A" ["B"; "C"]
           "A" ["B"; "C"] Hfree Hopen).
Defined.

Lemma Rev2_NewBalancer_master_witness :
  Rev2.NewBalancer (H := Scenario.healthy) "mysql" tt ";B" [] =
    Ok ({| DbMap := nil; replicas := [Some 0]; count := 0; masterCanRead := false |},
        [Scenario.cell "B"]) ∧
  (nil = nil ↔ ";B" = EmptyString ∨ ∃ s, ";B" = String ";" s).
Proof.
  assert (Hnew : Rev2.NewBalancer (H := Scenario.healthy) "mysql" tt ";B" [] =
    Ok ({| DbMap := nil; replicas := [Some 0]; count := 0; masterCanRead := false |},
        [Scenario.cell "B"])) by reflexivity.
  split; [exact Hnew|].
  exact (proj1 (Rev2_NewBalancer_master (H := Scenario.healthy) _ _ _ _ _ _ Hnew)).
Defined.

Lemma Rev2_NewBalancer_opens_nonempty_pieces_witness :
  Rev2.NewBalancer (H := Scenario.healthy) "mysql" tt "A;;B" [] =
    Ok ({| DbMap := Some 0; replicas := [Some 1]; count := 0; masterCanRead := false |},
        [Scenario.cell "A"; Scenario.cell "B"]) ∧
  ∃ cells,
    [Scenario.cell "A"; Scenario.cell "B"] = [] ++ cells ∧
    Forall2 (fun c cell => sql_Open (Collaborators := Scenario.healthy) "mysql" c
                             = Ok (Db cell) ∧ Dialect cell = tt)
            (filter (fun c => c ≠ EmptyString) (Split "A;;B" ";")) cells.
Proof.
  assert (Hnew : Rev2.NewBalancer (H := Scenario.healthy) "mysql" tt "A;;B" [] =
    Ok ({| DbMap := Some 0; replicas := [Some 1]; count := 0; masterCanRead := false |},
        [Scenario.cell "A"; Scenario.cell "B"])) by reflexivity.
  split; [exact Hnew|].
  exact (Rev2_NewBalancer_opens_nonempty_pieces (H := Scenario.healthy) _ _ _ _ _ _ Hnew).
Defined.

Lemma read_methods_go_to_selected_slave_witness :
  Rev1.reachable (H := Scenario.healthy) Scenario.one_two ∧
  Rev1.slaves Scenario.one_two ≠ [] ∧
  ∃ a b',
    Rev1.Slave Scenario.one_two = Done (Some a, b') ∧
    Some a ∈ Rev1.slaves Scenario.one_two ∧
    (∀ query args,
       SelectInt (H := MoreScenario.echo) Scenario.one_two query args =
       Done (DbMap_SelectInt (ReadMethods := MoreScenario.echo) a query args, b')).
Proof.
  assert (Hne : Rev1.slaves Scenario.one_two ≠ []) by (simpl; discriminate).
  destruct (read_methods_go_to_selected_slave (H := Scenario.healthy)
              (H0 := MoreScenario.echo) Scenario.one_two Rev1_reachable_one_two Hne)
    as (a & b' & HS & Hin & _ & _ & _ & _ & Hint & _).
  split; [exact Rev1_reachable_one_two|]. split; [exact Hne|].
  exists a, b'. split; [exact HS|]. split; [exact Hin|exact Hint].
Defined.

Lemma TraceOn_settings_witness :
  DbMap MoreScenario.one_two_master = Some 0 ∧
  Rev1.slaves MoreScenario.one_two_master = Some <$> [1; 2; 0] ∧
  ∃ t', TraceOn MoreScenario.one_two_master "db" tt ∅ = (t', Done tt) ∧
        t' !! 0 = Some ("db <master>", tt) ∧
        (∀ a, a ∈ [1; 2; 0] -> a ≠ 0 -> t' !! a = Some ("db <slave>", tt)) ∧
        (∀ a, a ∉ [1; 2; 0] -> a ≠ 0 -> t' !! a = (∅ : gmap loc (string * unit)) !! a).
Proof.
  assert (Hm : DbMap MoreScenario.one_two_master = Some 0) by reflexivity.
  assert (Hs : Rev1.slaves MoreScenario.one_two_master = Some <$> [1; 2; 0])
    by reflexivity.
  split; [exact Hm|]. split; [exact Hs|].
  exact (TraceOn_settings MoreScenario.one_two_master 0 [1; 2; 0] "db" tt ∅ Hm Hs).
Defined.

Lemma TraceOff_settings_witness :
  GetAllDbs Scenario.one_two = Some <$> [0; 1; 2] ∧
  (∀ a, a ∈ [0; 1; 2] -> (∅ : gmap loc (string * unit)) !! a = None) ∧
  ∃ t1, TraceOn Scenario.one_two "db" tt ∅ = (t1, Done tt) ∧
        TraceOff Scenario.one_two t1 = (∅, Done tt).
Proof.
  assert (Hall : GetAllDbs Scenario.one_two = Some <$> [0; 1; 2]) by reflexivity.
  assert (Hfree : ∀ a, a ∈ [0; 1; 2] -> (∅ : gmap loc (string * unit)) !! a = None)
    by (intros a _; apply lookup_empty).
  split; [exact Hall|]. split; [exact Hfree|].
  exact (proj2 (TraceOff_settings Scenario.one_two [0; 1; 2] "db" tt ∅ Hall) Hfree).
Defined.

Lemma Rev2_nil_master_panics_witness :
  Rev2.NewBalancer (H := Scenario.healthy) "mysql" tt "" [] =
    Ok (MoreScenario.nil_master, []) ∧
  ("" = EmptyString ∨ ∃ s, "" = String ";" s) ∧
  Rev2.Ping (H := Scenario.healthy) MoreScenario.nil_master =
    ([], Panic nil_dereference).
Proof.
  assert (Hnew : Rev2.NewBalancer (H := Scenario.healthy) "mysql" tt "" [] =
                 Ok (MoreScenario.nil_master, [])) by reflexivity.
  assert (Hs : "" = EmptyString ∨ ∃ s, "" = String ";" s) by (left; reflexivity).
  split; [exact Hnew|]. split; [exact Hs|].
  exact (proj1 (proj2 (proj2 (proj2
           (Rev2_nil_master_panics (H := Scenario.healthy) _ _ _ _ _ _ Hnew Hs))))).
Defined.
